(** * Camera Manager: the handlers of [dimogu_final1_assignment.py]
    over an abstract host.

    The program is a set of UI event handlers that drive the host
    application through [maya.cmds].  Every handler is embedded as a
    function of a small state-and-exception monad whose only effects are
    host commands.  The host is a parameter: a state type and, for every
    command, a transition that answers with a value or raises.  Each run
    records the commands it issued, with their answers, in a trace. *)

From Stdlib Require Import ZArith.
From stdpp Require Import gmap strings list pretty.

Local Open Scope Z_scope.

(** ** Python values and exceptions *)

(** The exception classes the handlers can meet.  All are subclasses of
    [Exception]; [RuntimeError] is what a failing host command raises,
    [TypeError] and [IndexError] come from subscripting. *)
Inductive exn_class : Type :=
| RuntimeError
| TypeError
| IndexError
| OtherException.

Record exn : Type := mkExn { exn_cls : exn_class; exn_msg : string }.

(** [except RuntimeError] *)
Definition is_RuntimeError (e : exn) : bool :=
  match exn_cls e with RuntimeError => true | _ => false end.

(** [except Exception] *)
Definition is_Exception (e : exn) : bool := true.

(** What a handler observes of an attribute value read with [getAttr]:
    its rendering by an f-string and its truth value. *)
Record attrval : Type := mkAttrval { av_str : string; av_truthy : bool }.

(** The callables handed to the host as [command=...]. *)
Inductive handler_id : Type :=
| H_create_camera
| H_delete_camera
| H_rename_camera
| H_toggle_lock_camera
| H_export_cameras
| H_import_cameras
| H_set_renderable_camera
| H_duplicate_camera
| H_show_camera_info.

(** ** Host commands

    One constructor per call shape of [cmds.*] in the source; keyword
    arguments that are constants of a call site are folded into the
    constructor. *)
Inductive cmd : Type :=
| Ls_camera                                   (* ls(type="camera") *)
| TslRemoveAll                                (* textScrollList("cameraList", edit=True, removeAll=True) *)
| TslAppend (item : string)                   (* textScrollList("cameraList", edit=True, append=item) *)
| TslSelectItem                               (* textScrollList("cameraList", query=True, selectItem=True) *)
| TslCreate (name : string) (height : Z)      (* textScrollList(name, height=.., allowMultiSelection=True) *)
| ListRelativesParent (node : string)         (* listRelatives(node, parent=True) *)
| ListRelativesShapes (node : string)         (* listRelatives(node, shapes=True, type="camera") *)
| Camera                                      (* camera() *)
| Delete (node : string)                      (* delete(node) *)
| Rename (node new_name : string)             (* rename(node, new_name) *)
| Duplicate (node : string)                   (* duplicate(node, renameChildren=True) *)
| ObjExists (name : string)                   (* objExists(name) *)
| GetAttrLock (attr : string)                 (* getAttr(attr, lock=True) *)
| SetAttrLock (attr : string) (lock : bool)   (* setAttr(attr, lock=lock) *)
| GetAttr (attr : string)                     (* getAttr(attr) *)
| SetAttr (attr : string) (value : Z)         (* setAttr(attr, value) *)
| Select (nodes : list string)                (* select(nodes, replace=True) *)
| FileExportSelected (path : string)          (* file(path, force=True, options="v=0;", type="mayaAscii", exportSelected=True) *)
| FileImport (path : string)                  (* file(path, i=True, type="mayaAscii", ignoreVersion=True, mergeNamespacesOnClash=False) *)
| FileDialog2 (fileMode : Z) (caption fileFilter : string)
                                              (* fileDialog2(dialogStyle=2, fileMode=.., caption=.., fileFilter=..) *)
| ConfirmDialog (title message : string) (button : list string)
    (defaultButton cancelButton : option string) (icon : string)
| PromptDialog (title message : string) (button : list string)
    (defaultButton cancelButton dismissString : string)
| PromptDialogText                            (* promptDialog(query=True, text=True) *)
| Warning (message : string)                  (* warning(message) *)
| InViewMessage (amg : string)                (* inViewMessage(amg=.., pos="topCenter", fade=True) *)
| PopupMenuExists (name : string)             (* popupMenu(name, exists=True) *)
| PopupMenu (name parent : string) (button : Z)
| MenuItem (label : string) (command : handler_id)
| DeleteUI (name : string)
| WindowExists (name : string)                (* window(name, exists=True) *)
| Window (name title : string) (width height : Z)
| ColumnLayout (rowSpacing : option Z)        (* columnLayout(adjustableColumn=True[, rowSpacing=..]) *)
| FrameLayout (label : string)                (* frameLayout(label=.., collapsable=False, marginHeight=5) *)
| Image (image : string) (height : Z)
| SetParent (parent : string)
| Button (label : string) (command : handler_id)
| Separator                                   (* separator(style="in", height=10) *)
| Text (label : string)                       (* text(label=.., align="center") *)
| ShowWindow (name : string)
| ShelfLayoutExists (name : string)           (* shelfLayout(name, exists=True) *)
| ShelfButton (parent annotation label image command : string)
| Print (line : string).                      (* print(..) *)

(** The type of a command's return value, after the host documentation:
    list queries answer a list of names or [None]. *)
Definition ans (c : cmd) : Type :=
  match c with
  | Ls_camera | Camera | Duplicate _ => list string
  | TslSelectItem | ListRelativesParent _ | ListRelativesShapes _
  | FileDialog2 _ _ _ => option (list string)
  | ObjExists _ | GetAttrLock _ | PopupMenuExists _ | WindowExists _
  | ShelfLayoutExists _ => bool
  | GetAttr _ => attrval
  | Rename _ _ | ConfirmDialog _ _ _ _ _ _ | PromptDialog _ _ _ _ _ _
  | PromptDialogText | Window _ _ _ _ => string
  | _ => unit
  end.

(** The commands that change the scene, its selection or a scene file:
    create camera, delete node, rename node, duplicate node, set
    attribute (value or lock), select, export selection, import file. *)
Definition is_mutating (c : cmd) : bool :=
  match c with
  | Camera | Delete _ | Rename _ _ | Duplicate _
  | SetAttrLock _ _ | SetAttr _ _
  | Select _ | FileExportSelected _ | FileImport _ => true
  | _ => false
  end.

(** The commands by which [list_cameras] rewrites the scroll list. *)
Definition is_list_edit (c : cmd) : bool :=
  match c with
  | TslRemoveAll | TslAppend _ => true
  | _ => false
  end.

(** The modal dialog every [except] clause of the source opens:
    [confirmDialog(title="Error", message=str(e), button=["OK"], icon="critical")]. *)
Definition error_dialog (e : exn) : cmd :=
  ConfirmDialog "Error" (exn_msg e) ["OK"] None None "critical".

Definition is_error_title (c : cmd) : bool :=
  match c with
  | ConfirmDialog t _ _ _ _ _ => String.eqb t "Error"
  | _ => false
  end.

(** ** The host *)

(** A host is a state and a transition for every command: the command
    either answers or raises, and leaves a new state. *)
Record Host : Type := mkHost {
  hstate : Type;
  exec : forall c : cmd, hstate -> (exn + ans c) * hstate
}.

(** ** Module-level state of the program *)

(** [os.path.join] on two components (POSIX separator). *)
Definition sep : Ascii.ascii := Ascii.ascii_of_nat 47.

Fixpoint ends_with_sep (s : string) : bool :=
  match s with
  | EmptyString => false
  | String c EmptyString => Ascii.eqb c sep
  | String _ s' => ends_with_sep s'
  end.

Definition os_path_join (a b : string) : string :=
  if String.prefix "/" b then b
  else if (String.eqb a "" || ends_with_sep a)%bool then a +:+ b
  else a +:+ "/" +:+ b.

(** The only module-level data binding of the source. *)
Record globals : Type := mkGlobals { IMG_PATH : string }.

(** [IMG_PATH = os.path.join(os.path.dirname(__file__), "img")] *)
Definition module_init (module_dir : string) : globals :=
  {| IMG_PATH := os_path_join module_dir "img" |}.

Section Handlers.

Context {host : Host}.

Record world : Type := mkWorld { w_globals : globals; w_host : hstate host }.

(** ** Traces *)

Inductive event : Type :=
| Ev (c : cmd) (r : exn + ans c) (post : hstate host).

Definition ev_cmd (e : event) : cmd := let 'Ev c _ _ := e in c.
Definition ev_post (e : event) : hstate host := let 'Ev _ _ p := e in p.
Definition ev_exn (e : event) : option exn :=
  match e with
  | Ev _ (inl x) _ => Some x
  | Ev _ (inr _) _ => None
  end.
Definition ev_ok (e : event) : bool :=
  match ev_exn e with Some _ => false | None => true end.

(** ** The monad *)

Record Res (A : Type) : Type := mkRes {
  res_out : exn + A;
  res_world : world;
  res_trace : list event
}.
Arguments mkRes {A}.
Arguments res_out {A}.
Arguments res_world {A}.
Arguments res_trace {A}.

Definition M (A : Type) : Type := world -> Res A.

Definition ret {A} (a : A) : M A := fun w => mkRes (inr a) w [].

Definition raise {A} (e : exn) : M A := fun w => mkRes (inl e) w [].

Definition bind {A B} (m : M A) (k : A -> M B) : M B := fun w =>
  let r := m w in
  match res_out r with
  | inl e => mkRes (inl e) (res_world r) (res_trace r)
  | inr a =>
      let r' := k a (res_world r) in
      mkRes (res_out r') (res_world r') (res_trace r ++ res_trace r')
  end.

(** [try: body except <catches> as e: handler e] *)
Definition try_except {A} (body : M A) (catches : exn -> bool)
    (handler : exn -> M A) : M A := fun w =>
  let r := body w in
  match res_out r with
  | inl e =>
      if catches e then
        let r' := handler e (res_world r) in
        mkRes (res_out r') (res_world r') (res_trace r ++ res_trace r')
      else r
  | inr _ => r
  end.

(** One host command. *)
Definition call (c : cmd) : M (ans c) := fun w =>
  let (r, h') := exec host c (w_host w) in
  mkRes r (mkWorld (w_globals w) h') [Ev c r h'].

(** Reading a module-level name. *)
Definition read_global {A} (f : globals -> A) : M A := fun w =>
  mkRes (inr (f (w_globals w))) w [].

End Handlers.

Arguments world : clear implicits.
Arguments event : clear implicits.
Arguments Res : clear implicits.
Arguments M : clear implicits.
Arguments mkRes {host A}.
Arguments res_out {host A}.
Arguments res_world {host A}.
Arguments res_trace {host A}.

Declare Scope host_scope.
Delimit Scope host_scope with host_m.
Notation "x <- m ;; k" := (bind m (fun x => k))
  (at level 100, m at next level, right associativity) : host_scope.
Notation "m ;; k" := (bind m (fun _ => k))
  (at level 100, right associativity) : host_scope.
Local Open Scope host_scope.

(** ** Python idioms used by the handlers *)

Section Idioms.

Context {host : Host}.

(** [for x in l: body x] *)
Fixpoint for_each {A} (l : list A) (body : A -> M host unit) : M host unit :=
  match l with
  | [] => ret tt
  | x :: l' => body x ;; for_each l' body
  end.

(** [[f x for x in l]] *)
Fixpoint comprehension {A B} (l : list A) (f : A -> M host B) : M host (list B) :=
  match l with
  | [] => ret []
  | x :: l' => y <- f x ;; ys <- comprehension l' f ;; ret (y :: ys)
  end.

(** [v[0]] where [v] is a list or [None]. *)
Definition subscript0 (v : option (list string)) : M host string :=
  match v with
  | None => raise (mkExn TypeError "'NoneType' object is not subscriptable")
  | Some [] => raise (mkExn IndexError "list index out of range")
  | Some (x :: _) => ret x
  end.

(** [bool(v)] for a list or [None]. *)
Definition truthy (v : option (list string)) : bool :=
  match v with
  | Some (_ :: _) => true
  | _ => false
  end.

(** [', '.join(l)] *)
Definition join (l : list string) : string := String.concat ", " l.

Definition nl : string := String (Ascii.ascii_of_nat 10) EmptyString.

(** [except ... as e: cmds.confirmDialog(title="Error", message=str(e), ...)] *)
Definition show_error (e : exn) : M host unit :=
  call (error_dialog e) ;; ret tt.

End Idioms.

(** ** The handlers *)

Section Program.

Context {host : Host}.

Definition list_cameras : M host unit :=
  cameras <- call Ls_camera ;;
  call TslRemoveAll ;;
  cameras <- comprehension cameras
               (fun c => ps <- call (ListRelativesParent c) ;; subscript0 ps) ;;
  for_each cameras (fun cam => call (TslAppend cam)).

Definition create_camera : M host unit :=
  call Camera ;;
  list_cameras.

Definition delete_camera : M host unit :=
  selected <- call TslSelectItem ;;
  if truthy selected then
    sel0 <- subscript0 selected ;;
    confirm <- call (ConfirmDialog "Delete Camera?"
                 ("Are you sure you want to delete camera: " +:+ sel0 +:+ "?")
                 ["Yes"; "No"] (Some "No") (Some "No") "warning") ;;
    if String.eqb confirm "Yes" then
      try_except
        (sel0 <- subscript0 selected ;;
         call (Delete sel0) ;;
         list_cameras)
        is_RuntimeError show_error
    else ret tt
  else ret tt.

Definition rename_camera : M host unit :=
  selected <- call TslSelectItem ;;
  if truthy selected then
    result <- call (PromptDialog "Rename Camera" "Enter new camera name:"
                ["OK"; "Cancel"] "OK" "Cancel" "Cancel") ;;
    if String.eqb result "OK" then
      new_name <- call PromptDialogText ;;
      exists_ <- call (ObjExists new_name) ;;
      if exists_ : bool then
        call (ConfirmDialog "Error"
                ("A camera named '" +:+ new_name +:+ "' already exists.")
                ["OK"] None None "critical") ;;
        ret tt
      else
        try_except
          (sel0 <- subscript0 selected ;;
           call (Rename sel0 new_name) ;;
           list_cameras)
          is_RuntimeError show_error
    else ret tt
  else ret tt.

Definition toggle_lock_camera : M host unit :=
  selected <- call TslSelectItem ;;
  if negb (truthy selected) then
    call (Warning "No camera selected.")
  else
    cam <- subscript0 selected ;;
    try_except
      (locked <- call (GetAttrLock (cam +:+ ".translateX")) ;;
       for_each ["translate"; "rotate"; "scale"] (fun attr =>
         for_each ["X"; "Y"; "Z"] (fun axis =>
           call (SetAttrLock (cam +:+ "." +:+ attr +:+ axis) (negb locked)))) ;;
       let state := if negb locked then "locked" else "unlocked" in
       call (InViewMessage ("Camera <hl>" +:+ cam +:+ "</hl> transforms " +:+ state)))
      is_Exception show_error.

Definition export_cameras : M host unit :=
  selected <- call TslSelectItem ;;
  if negb (truthy selected) then
    call (Warning "No cameras selected to export.")
  else
    file_path <- call (FileDialog2 0 "Export Cameras" "Maya ASCII (*.ma)") ;;
    if negb (truthy file_path) then ret tt
    else
      file_path <- subscript0 file_path ;;
      try_except
        (call (Select (default [] selected)) ;;
         call (FileExportSelected file_path) ;;
         call (InViewMessage
                 ("Exported cameras: <hl>" +:+ join (default [] selected) +:+ "</hl>")))
        is_Exception show_error.

Definition import_cameras : M host unit :=
  file_path <- call (FileDialog2 1 "Import Cameras" "Maya ASCII (*.ma)") ;;
  if negb (truthy file_path) then ret tt
  else
    file_path <- subscript0 file_path ;;
    try_except
      (call (FileImport file_path) ;;
       list_cameras ;;
       call (InViewMessage ("Imported cameras from <hl>" +:+ file_path +:+ "</hl>")))
      is_Exception show_error.

Definition set_renderable_camera : M host unit :=
  selected <- call TslSelectItem ;;
  if negb (truthy selected) then
    call (Warning "No camera selected.")
  else
    cam <- subscript0 selected ;;
    all_cams <- call Ls_camera ;;
    for_each all_cams (fun cam_shape =>
      try_except
        (call (SetAttr (cam_shape +:+ ".renderable") 0))
        is_Exception (fun _ => ret tt)) ;;
    try_except
      (shapes <- call (ListRelativesShapes cam) ;;
       cam_shape <- subscript0 shapes ;;
       call (SetAttr (cam_shape +:+ ".renderable") 1) ;;
       call (InViewMessage ("<hl>" +:+ cam +:+ "</hl> is now the renderable camera")))
      is_Exception show_error.

Definition duplicate_camera : M host unit :=
  selected <- call TslSelectItem ;;
  if negb (truthy selected) then
    call (Warning "No camera selected.")
  else
    cam <- subscript0 selected ;;
    try_except
      (dup <- call (Duplicate cam) ;;
       new_cam <- subscript0 (Some dup) ;;
       new_name <- call (Rename new_cam (cam +:+ "_copy#")) ;;
       list_cameras ;;
       call (InViewMessage ("Duplicated camera <hl>" +:+ cam +:+ "</hl> as <hl>"
                              +:+ new_name +:+ "</hl>")))
      is_Exception show_error.

Definition show_camera_info : M host unit :=
  selected <- call TslSelectItem ;;
  if negb (truthy selected) then
    call (Warning "No camera selected.")
  else
    cam <- subscript0 selected ;;
    try_except
      (shapes <- call (ListRelativesShapes cam) ;;
       cam_shape <- subscript0 shapes ;;
       focal_length <- call (GetAttr (cam_shape +:+ ".focalLength")) ;;
       near_clip <- call (GetAttr (cam_shape +:+ ".nearClipPlane")) ;;
       far_clip <- call (GetAttr (cam_shape +:+ ".farClipPlane")) ;;
       renderable <- call (GetAttr (cam_shape +:+ ".renderable")) ;;
       horizontal_ap <- call (GetAttr (cam_shape +:+ ".horizontalFilmAperture")) ;;
       vertical_ap <- call (GetAttr (cam_shape +:+ ".verticalFilmAperture")) ;;
       let msg :=
         "Camera: " +:+ cam +:+ nl +:+
         "Focal Length: " +:+ av_str focal_length +:+ " mm" +:+ nl +:+
         "Near Clip: " +:+ av_str near_clip +:+ nl +:+
         "Far Clip: " +:+ av_str far_clip +:+ nl +:+
         "Renderable: " +:+ (if av_truthy renderable then "Yes" else "No") +:+ nl +:+
         "Film Aperture: " +:+ av_str horizontal_ap +:+ " x " +:+ av_str vertical_ap in
       call (ConfirmDialog "Camera Info" msg ["OK"] None None "information") ;;
       ret tt)
      is_Exception show_error.

Definition add_camera_popup_menu (scroll_list_name : string) : M host unit :=
  exists_ <- call (PopupMenuExists "camListMenu") ;;
  (if exists_ : bool then call (DeleteUI "camListMenu") else ret tt) ;;
  call (PopupMenu "camListMenu" scroll_list_name 3) ;;
  call (MenuItem "Set as Renderable" H_set_renderable_camera) ;;
  call (MenuItem "Duplicate Camera" H_duplicate_camera) ;;
  call (MenuItem "Show Camera Info" H_show_camera_info).

Definition cam_manager_ui : M host unit :=
  let ui_title := "cam_manager" in
  exists_ <- call (WindowExists ui_title) ;;
  (if exists_ : bool then call (DeleteUI ui_title) else ret tt) ;;
  window <- call (Window ui_title "Camera Manager" 300 900) ;;
  main_col <- call (ColumnLayout (Some 10)) ;;
  (* Header *)
  call (FrameLayout "Camera Manager") ;;
  call (ColumnLayout None) ;;
  img_path <- read_global IMG_PATH ;;
  call (Image (os_path_join img_path "main_camera_image.jpeg") 100) ;;
  call (SetParent "..") ;;
  (* Camera List *)
  call (FrameLayout "Cameras") ;;
  call (ColumnLayout None) ;;
  call (TslCreate "cameraList" 150) ;;
  add_camera_popup_menu "cameraList" ;;
  call (SetParent "..") ;;
  (* Buttons *)
  call (FrameLayout "Camera Operations") ;;
  call (ColumnLayout (Some 5)) ;;
  call (Button "Create New Camera" H_create_camera) ;;
  call (Button "Delete Camera" H_delete_camera) ;;
  call (Button "Rename Camera" H_rename_camera) ;;
  call (Button "Lock/Unlock Camera Transforms" H_toggle_lock_camera) ;;
  call (Button "Export Selected Cameras" H_export_cameras) ;;
  call (Button "Import Cameras" H_import_cameras) ;;
  call (SetParent "..") ;;
  call Separator ;;
  call (Text "Select a camera and use the right-click menu for more options.") ;;
  call (ShowWindow ui_title) ;;
  list_cameras.

Definition add_shelf_button : M host unit :=
  let shelf := "Custom" in
  exists_ <- call (ShelfLayoutExists shelf) ;;
  if exists_ : bool then
    img_path <- read_global IMG_PATH ;;
    call (ShelfButton shelf "Camera Manager" "CamMgr"
            (os_path_join img_path "main_camera_image.jpg")
            "import camera_manager; camera_manager.cam_manager_ui()") ;;
    call (Print ("Camera Manager button added to shelf: " +:+ shelf))
  else ret tt.

(** The function each callback identifier is bound to. *)
Definition handler_of (h : handler_id) : M host unit :=
  match h with
  | H_create_camera => create_camera
  | H_delete_camera => delete_camera
  | H_rename_camera => rename_camera
  | H_toggle_lock_camera => toggle_lock_camera
  | H_export_cameras => export_cameras
  | H_import_cameras => import_cameras
  | H_set_renderable_camera => set_renderable_camera
  | H_duplicate_camera => duplicate_camera
  | H_show_camera_info => show_camera_info
  end.

End Program.

(** ** A concrete host: a small scene

    A scene holds camera shapes under transforms, numeric attributes,
    attribute locks, the scroll list of the tool and the answers the user
    is going to give to the dialogs.  It is one host among all those the
    theorems quantify over; the examples below are run on it. *)
Module Scene.

Record scene : Type := mkScene {
  sc_cameras : list (string * string);  (* (shape, transform), in listing order *)
  sc_attr : gmap string Z;              (* numeric attribute values *)
  sc_lock : gmap string bool;           (* locked attributes *)
  sc_items : list string;               (* entries of "cameraList" *)
  sc_selected : list string;            (* selected entries *)
  sc_buttons : list string;             (* buttons the user will press in dialogs *)
  sc_prompt : string;                   (* text typed in the prompt dialog *)
  sc_files : option (list string)       (* what the file dialog returns *)
}.

Definition locked (s : scene) (a : string) : bool := default false (sc_lock s !! a).

Definition set_cameras (s : scene) (l : list (string * string)) : scene :=
  mkScene l (sc_attr s) (sc_lock s) (sc_items s) (sc_selected s)
    (sc_buttons s) (sc_prompt s) (sc_files s).
Definition set_attr (s : scene) (m : gmap string Z) : scene :=
  mkScene (sc_cameras s) m (sc_lock s) (sc_items s) (sc_selected s)
    (sc_buttons s) (sc_prompt s) (sc_files s).
Definition set_lock (s : scene) (m : gmap string bool) : scene :=
  mkScene (sc_cameras s) (sc_attr s) m (sc_items s) (sc_selected s)
    (sc_buttons s) (sc_prompt s) (sc_files s).
Definition set_items (s : scene) (items sel : list string) : scene :=
  mkScene (sc_cameras s) (sc_attr s) (sc_lock s) items sel
    (sc_buttons s) (sc_prompt s) (sc_files s).
Definition set_buttons (s : scene) (l : list string) : scene :=
  mkScene (sc_cameras s) (sc_attr s) (sc_lock s) (sc_items s) (sc_selected s)
    l (sc_prompt s) (sc_files s).

Definition no_object (n : string) : exn :=
  mkExn RuntimeError ("No object matches name: " +:+ n).

Definition shapes_of (s : scene) (transform : string) : list string :=
  map fst (filter (fun p => bool_decide (snd p = transform)) (sc_cameras s)).

Definition parent_of (s : scene) (shape : string) : option string :=
  snd <$> head (filter (fun p => bool_decide (fst p = shape)) (sc_cameras s)).

Definition has_node (s : scene) (n : string) : bool :=
  bool_decide (n ∈ map fst (sc_cameras s) ++ map snd (sc_cameras s)).

Definition press (s : scene) : string * scene :=
  match sc_buttons s with
  | [] => ("dismiss", s)
  | b :: l => (b, set_buttons s l)
  end.

Definition step (c : cmd) (s : scene) : (exn + ans c) * scene :=
  match c return (exn + ans c) * scene with
  | Ls_camera => (inr (map fst (sc_cameras s)), s)
  | TslRemoveAll => (inr tt, set_items s [] [])
  | TslAppend x => (inr tt, set_items s (sc_items s ++ [x]) (sc_selected s))
  | TslSelectItem =>
      (inr (match sc_selected s with [] => None | l => Some l end), s)
  | ListRelativesParent n =>
      match parent_of s n with
      | Some t => (inr (Some [t]), s)
      | None => (inl (no_object n), s)
      end
  | ListRelativesShapes n =>
      if has_node s n then
        (inr (match shapes_of s n with [] => None | l => Some l end), s)
      else (inl (no_object n), s)
  | Camera =>
      let t := "camera" +:+ pretty (S (length (sc_cameras s))) in
      let sh := "cameraShape" +:+ pretty (S (length (sc_cameras s))) in
      (inr [t; sh], set_cameras s (sc_cameras s ++ [(sh, t)]))
  | Delete n =>
      if has_node s n then
        (inr tt, set_cameras s
           (filter (fun p => bool_decide (fst p ≠ n ∧ snd p ≠ n)) (sc_cameras s)))
      else (inl (no_object n), s)
  | Rename a b =>
      if has_node s a then
        (inr b, set_cameras s
           (map (fun p => (if bool_decide (fst p = a) then b else fst p,
                           if bool_decide (snd p = a) then b else snd p))
              (sc_cameras s)))
      else (inl (no_object a), s)
  | Duplicate n =>
      match shapes_of s n with
      | [] => (inl (no_object n), s)
      | sh :: _ =>
          let k := pretty (S (length (sc_cameras s))) in
          (inr [n +:+ k], set_cameras s (sc_cameras s ++ [(sh +:+ k, n +:+ k)]))
      end
  | ObjExists n => (inr (has_node s n), s)
  | GetAttrLock a => (inr (locked s a), s)
  | SetAttrLock a b => (inr tt, set_lock s (<[a := b]> (sc_lock s)))
  | GetAttr a =>
      match sc_attr s !! a with
      | Some v => (inr (mkAttrval (pretty v) (negb (v =? 0))), s)
      | None => (inl (no_object a), s)
      end
  | SetAttr a v =>
      if locked s a then
        (inl (mkExn RuntimeError
                ("setAttr: The attribute '" +:+ a +:+
                 "' is locked or connected and cannot be modified.")), s)
      else (inr tt, set_attr s (<[a := v]> (sc_attr s)))
  | Select _ | FileExportSelected _ | FileImport _ => (inr tt, s)
  | FileDialog2 _ _ _ => (inr (sc_files s), s)
  | ConfirmDialog _ _ _ _ _ _ | PromptDialog _ _ _ _ _ _ =>
      let (b, s') := press s in (inr b, s')
  | PromptDialogText => (inr (sc_prompt s), s)
  | PopupMenuExists _ | WindowExists _ | ShelfLayoutExists _ => (inr false, s)
  | Window n _ _ _ => (inr n, s)
  | _ => (inr tt, s)
  end.

Definition scene_host : Host := mkHost scene step.

(** A host on which every command fails. *)
Definition broken_host : Host :=
  mkHost unit (fun c _ => (inl (mkExn RuntimeError "command failed"), tt)).

End Scene.

(** ** Enumerating the program's functions *)

Inductive function_id : Type :=
| F_list_cameras
| F_handler (h : handler_id)
| F_add_camera_popup_menu (scroll_list_name : string)
| F_cam_manager_ui
| F_add_shelf_button.

Definition function_of {host : Host} (f : function_id) : M host unit :=
  match f with
  | F_list_cameras => list_cameras
  | F_handler h => handler_of h
  | F_add_camera_popup_menu n => add_camera_popup_menu n
  | F_cam_manager_ui => cam_manager_ui
  | F_add_shelf_button => add_shelf_button
  end.

(** The handlers that start by reading the selection of the scroll list. *)
Definition selection_dependent (h : handler_id) : bool :=
  match h with
  | H_create_camera | H_import_cameras => false
  | _ => true
  end.

Definition non_mutating {host : Host} (e : event host) : Prop :=
  is_mutating (ev_cmd e) = false.


(** The shape of the trace of [list_cameras]: [resolved cams tr ps] says
    that [tr] asks for the parents of the shapes [cams], one query per
    shape and in their order, and that [ps] lists the first parent of
    each answer; [appended ps tr] says that [tr] appends the entries
    [ps], one command per entry and in their order. *)
Inductive resolved {host : Host} :
  list string -> list (event host) -> list string -> Prop :=
| resolved_nil : resolved [] [] []
| resolved_cons c cams p rest s tr ps :
    resolved cams tr ps ->
    resolved (c :: cams)
      (Ev (ListRelativesParent c) (inr (Some (p :: rest))) s :: tr) (p :: ps).

Inductive appended {host : Host} : list string -> list (event host) -> Prop :=
| appended_nil : appended [] []
| appended_cons p ps s tr :
    appended ps tr ->
    appended (p :: ps) (Ev (TslAppend p) (inr tt) s :: tr).

Module Examples.
Import Scene.

(** Two cameras; "cam1" is selected, its translateY is locked, the
    default camera is the renderable one. *)
Definition studio : scene :=
  mkScene [("perspShape", "persp"); ("cam1Shape", "cam1")]
    {[ "perspShape.renderable" := 1; "cam1Shape.renderable" := 0 ]}
    {[ "cam1.translateY" := true ]}
    ["persp"; "cam1"] ["cam1"] ["Yes"] "shot" (Some ["/tmp/cams.ma"]).

Definition studio_nosel : scene := set_items studio ["persp"; "cam1"] [].

Definition at_scene (s : scene) : world scene_host :=
  @mkWorld scene_host (module_init "/proj/scripts") s.

Definition at_broken : world broken_host :=
  @mkWorld broken_host (module_init "/proj/scripts") tt.

End Examples.

(** ** Reasoning about runs

    [wp m post w]: the run of [m] from [w] ends in an outcome, a world and
    a trace that satisfy [post]. *)
Definition wp {host : Host} {A} (m : M host A)
    (post : exn + A -> world host -> list (event host) -> Prop)
    (w : world host) : Prop :=
  post (res_out (m w)) (res_world (m w)) (res_trace (m w)).

(** ** The commands that build the window

    [cam_manager_ui] issues [window_query], deletes a stale window if there
    is one, then [ui_header], the popup-menu query, deletes a stale menu
    if there is one, then [ui_menu] and [ui_buttons], and ends with
    [list_cameras]. *)
Definition ui_header (g : globals) : list cmd :=
  [Window "cam_manager" "Camera Manager" 300 900;
   ColumnLayout (Some 10);
   FrameLayout "Camera Manager";
   ColumnLayout None;
   Image (os_path_join (IMG_PATH g) "main_camera_image.jpeg") 100;
   SetParent "..";
   FrameLayout "Cameras";
   ColumnLayout None;
   TslCreate "cameraList" 150;
   PopupMenuExists "camListMenu"].

Definition ui_menu : list cmd :=
  [PopupMenu "camListMenu" "cameraList" 3;
   MenuItem "Set as Renderable" H_set_renderable_camera;
   MenuItem "Duplicate Camera" H_duplicate_camera;
   MenuItem "Show Camera Info" H_show_camera_info].

Definition ui_buttons : list cmd :=
  [SetParent "..";
   FrameLayout "Camera Operations";
   ColumnLayout (Some 5);
   Button "Create New Camera" H_create_camera;
   Button "Delete Camera" H_delete_camera;
   Button "Rename Camera" H_rename_camera;
   Button "Lock/Unlock Camera Transforms" H_toggle_lock_camera;
   Button "Export Selected Cameras" H_export_cameras;
   Button "Import Cameras" H_import_cameras;
   SetParent "..";
   Separator;
   Text "Select a camera and use the right-click menu for more options.";
   ShowWindow "cam_manager"].

(** ** Properties of traces *)

(** Every command of every run of [m] satisfies [P]. *)
Definition emits_only {host : Host} {A} (P : cmd -> bool) (m : M host A) : Prop :=
  forall w, Forall (fun e => P (ev_cmd e) = true) (res_trace (m w)).

(** The commands of [list_cameras]. *)
Definition is_list_cmd (c : cmd) : bool :=
  match c with
  | Ls_camera | TslRemoveAll | ListRelativesParent _ | TslAppend _ => true
  | _ => false
  end.

(** [raise_last o tr]: if a command of [tr] raised, it is the last one of
    [tr] and its exception is the outcome [o]. *)
Fixpoint raise_last {host : Host} {A} (o : exn + A) (tr : list (event host)) : Prop :=
  match tr with
  | [] => True
  | e :: tl =>
      match ev_exn e with
      | Some y => tl = [] /\ o = inl y
      | None => raise_last o tl
      end
  end.

Definition propagating {host : Host} {A} (m : M host A) : Prop :=
  forall w, raise_last (res_out (m w)) (res_trace (m w)).

(** A run is clean when it returns and has shown no "Error" dialog. *)
Definition no_error_dialog {host : Host} (e : event host) : Prop :=
  is_error_title (ev_cmd e) = false.

Definition clean {host : Host} {A} (o : exn + A) (tr : list (event host)) : Prop :=
  (exists a, o = inr a) /\ Forall no_error_dialog tr.

(** The last mutating command of a trace, with what follows it. *)
Fixpoint after_last_mutating {host : Host} (tr : list (event host)) :
    option (event host * list (event host)) :=
  match tr with
  | [] => None
  | e :: tl =>
      match after_last_mutating tl with
      | Some x => Some x
      | None => if is_mutating (ev_cmd e) then Some (e, tl) else None
      end
  end.

Definition world_after {host : Host} (w : world host) (e : event host) : world host :=
  mkWorld (w_globals w) (ev_post e).

(** Right after the last mutating command of the run of [m] from [w], the
    run goes through [list_cameras]. *)
Definition refreshes_after_mutation {host : Host} (m : M host unit) (w : world host) : Prop :=
  forall e post,
    after_last_mutating (res_trace (m w)) = Some (e, post) ->
    exists post', post = res_trace (list_cameras (world_after w e)) ++ post'.

(** The handlers that change which cameras exist or how they are named. *)
Definition refreshing (h : handler_id) : bool :=
  match h with
  | H_create_camera | H_delete_camera | H_rename_camera
  | H_import_cameras | H_duplicate_camera => true
  | _ => false
  end.

(** The mutating commands of a trace, in order. *)
Definition mutating_cmds {host : Host} (tr : list (event host)) : list cmd :=
  List.filter is_mutating (map ev_cmd tr).

(** [clean] as a test, for runs on a concrete host. *)
Definition cleanb {host : Host} {A} (o : exn + A) (tr : list (event host)) : bool :=
  match o with
  | inr _ => forallb (fun e => negb (is_error_title (ev_cmd e))) tr
  | inl _ => false
  end.

(** The command that follows the last mutating command of a trace. *)
Definition first_after_mutation {host : Host} (tr : list (event host)) : option cmd :=
  match after_last_mutating tr with
  | Some (_, post) => head (map ev_cmd post)
  | None => None
  end.

(** ** Mutating commands of a handler *)

(** The nine transform attributes, in the order the nested loops of
    [toggle_lock_camera] visit them. *)
Definition transform_attrs : list string :=
  flat_map (fun attr => map (fun axis => attr +:+ axis) ["X"; "Y"; "Z"])
    ["translate"; "rotate"; "scale"].

(** The lock commands of [toggle_lock_camera] on [cam]. *)
Definition lock_cmds (cam : string) (b : bool) : list cmd :=
  map (fun a => SetAttrLock (cam +:+ "." +:+ a) b) transform_attrs.

(** The commands of the first loop of [set_renderable_camera]. *)
Definition reset_cmds (shapes : list string) : list cmd :=
  map (fun c => SetAttr (c +:+ ".renderable") 0) shapes.

(** The body of that loop:
    [try: cmds.setAttr(cam_shape + ".renderable", 0) except Exception: pass]. *)
Definition reset_renderable {host : Host} (cam_shape : string) : M host unit :=
  try_except (call (SetAttr (cam_shape +:+ ".renderable") 0))
    is_Exception (fun _ => ret tt).

(** The handlers with at most one mutating command in their source. *)
Definition single_command (h : handler_id) : bool :=
  match h with
  | H_create_camera | H_delete_camera | H_rename_camera | H_import_cameras
  | H_show_camera_info => true
  | _ => false
  end.

Definition at_most_one {host : Host} :
    exn + unit -> world host -> list (event host) -> Prop :=
  fun _ _ tr => (length (mutating_cmds tr) <= 1)%nat.

(** ** Exceptions *)

(** The commands a handler issues inside its [try ... except ... as e]
    block. *)
Definition guarded (h : handler_id) (c : cmd) : bool :=
  match h with
  | H_create_camera => false
  | H_delete_camera => match c with Delete _ => true | _ => is_list_cmd c end
  | H_rename_camera => match c with Rename _ _ => true | _ => is_list_cmd c end
  | H_toggle_lock_camera =>
      match c with
      | GetAttrLock _ | SetAttrLock _ _ | InViewMessage _ => true
      | _ => false
      end
  | H_export_cameras =>
      match c with
      | Select _ | FileExportSelected _ | InViewMessage _ => true
      | _ => false
      end
  | H_import_cameras =>
      match c with
      | FileImport _ | InViewMessage _ => true
      | _ => is_list_cmd c
      end
  | H_set_renderable_camera =>
      match c with
      | ListRelativesShapes _ | InViewMessage _ => true
      | SetAttr _ v => v =? 1
      | _ => false
      end
  | H_duplicate_camera =>
      match c with
      | Duplicate _ | Rename _ _ | InViewMessage _ => true
      | _ => is_list_cmd c
      end
  | H_show_camera_info =>
      match c with
      | ListRelativesShapes _ | GetAttr _ => true
      | ConfirmDialog t _ _ _ _ _ => String.eqb t "Camera Info"
      | _ => false
      end
  end.

(** The exceptions the [except] clause of a handler names. *)
Definition caught (h : handler_id) (x : exn) : bool :=
  match h with
  | H_create_camera => false
  | H_delete_camera | H_rename_camera => is_RuntimeError x
  | _ => is_Exception x
  end.

(** The commands under [except Exception: pass]. *)
Definition suppressed (h : handler_id) (c : cmd) : bool :=
  match h, c with
  | H_set_renderable_camera, SetAttr _ v => v =? 0
  | _, _ => false
  end.

(** The handlers that call [list_cameras] inside their [try] block. *)
Definition refresh_guarded (h : handler_id) : bool :=
  match h with
  | H_delete_camera | H_rename_camera | H_import_cameras | H_duplicate_camera => true
  | _ => false
  end.

(** What a handler returns after its [except] clause has shown the dialog:
    the exception of the dialog if it raised, [None] otherwise. *)
Definition after_dialog (r : exn + string) : exn + unit :=
  match r with
  | inl y => inl y
  | inr _ => inr tt
  end.

(** [handled h o tr]: in the trace [tr] of a run of [h] with outcome [o],
    every command that raised is dealt with the way its place in the
    source says: passed over, shown in the dialog, or left to the caller. *)
Fixpoint handled {host : Host} (h : handler_id) (o : exn + unit)
    (tr : list (event host)) : Prop :=
  match tr with
  | [] => True
  | e :: tl =>
      match ev_exn e with
      | None => handled h o tl
      | Some x =>
          if suppressed h (ev_cmd e) then handled h o tl
          else if (guarded h (ev_cmd e) && caught h x)%bool
          then exists r s, tl = [Ev (error_dialog x) r s] /\ o = after_dialog r
          else tl = [] /\ o = inl x
      end
  end.

(** ** Dialogs the user turns down *)

(** The user answered the delete confirmation with something else than
    "Yes", the rename prompt with something else than "OK", or left the
    file dialog without a path. *)
Definition declined {host : Host} (e : event host) : bool :=
  match e with
  | Ev c r _ =>
      match c return exn + ans c -> bool with
      | ConfirmDialog t _ _ _ _ _ => fun r =>
          match r with
          | inr a => String.eqb t "Delete Camera?" && negb (String.eqb a "Yes")
          | inl _ => false
          end
      | PromptDialog _ _ _ _ _ _ => fun r =>
          match r with
          | inr a => negb (String.eqb a "OK")
          | inl _ => false
          end
      | FileDialog2 _ _ _ => fun r =>
          match r with
          | inr fp => negb (truthy fp)
          | inl _ => false
          end
      | _ => fun _ => false
      end r
  end.

(** A declined dialog ends the trace, the run returns, and nothing was
    mutated before it. *)
Fixpoint stops_on_decline {host : Host} (o : exn + unit) (tr : list (event host)) : Prop :=
  match tr with
  | [] => True
  | e :: tl =>
      if declined e then tl = [] /\ o = inr tt
      else if is_mutating (ev_cmd e) then Forall (fun e' => declined e' = false) tl
      else stops_on_decline o tl
  end.

(** The prompt of [rename_camera] and the dialog it shows instead of
    renaming when the new name is taken. *)
Definition rename_prompt : cmd :=
  PromptDialog "Rename Camera" "Enter new camera name:" ["OK"; "Cancel"]
    "OK" "Cancel" "Cancel".

Definition name_taken_dialog (new_name : string) : cmd :=
  ConfirmDialog "Error" ("A camera named '" +:+ new_name +:+ "' already exists.")
    ["OK"] None None "critical".

(** ** Attributes and locks of the host

    What the handlers rely on when they write an attribute or a lock.  The
    host is abstract; [value] and [lock_of] say how its state is read. *)
Record attr_laws (host : Host) (value : hstate host -> string -> option Z) : Prop :=
  mk_attr_laws {
    value_set : forall a v s s',
      exec host (SetAttr a v) s = (inr tt, s') -> value s' a = Some v;
    value_set_other : forall a v s r s' b,
      exec host (SetAttr a v) s = (r, s') -> b <> a -> value s' b = value s b;
    value_set_failed : forall a v s x s',
      exec host (SetAttr a v) s = (inl x, s') -> value s' a = value s a;
    value_quiet : forall c s b,
      is_mutating c = false -> value (snd (exec host c s)) b = value s b
  }.

Record lock_laws (host : Host) (lock_of : hstate host -> string -> bool) : Prop :=
  mk_lock_laws {
    lock_get : forall a s b s',
      exec host (GetAttrLock a) s = (inr b, s') -> b = lock_of s a;
    lock_set : forall a b s s',
      exec host (SetAttrLock a b) s = (inr tt, s') -> lock_of s' a = b;
    lock_set_other : forall a b s r s' a',
      exec host (SetAttrLock a b) s = (r, s') -> a' <> a -> lock_of s' a' = lock_of s a';
    lock_quiet : forall c s a,
      is_mutating c = false -> lock_of (snd (exec host c s)) a = lock_of s a
  }.

Definition exclusive_post {host : Host} (value : hstate host -> string -> option Z)
    (w : world host) : exn + unit -> world host -> list (event host) -> Prop :=
  fun o w' tr =>
    clean o tr ->
    forall cam rest s0 shapes s1,
      exec host TslSelectItem (w_host w) = (inr (Some (cam :: rest)), s0) ->
      exec host Ls_camera s0 = (inr shapes, s1) ->
      exists sh others s2,
        In (Ev (ListRelativesShapes cam) (inr (Some (sh :: others))) s2) tr /\
        value (w_host w') (sh +:+ ".renderable") = Some 1 /\
        forall c, In c shapes -> c <> sh ->
          value (w_host w') (c +:+ ".renderable") = Some 0 \/
          exists x s, In (Ev (SetAttr (c +:+ ".renderable") 0) (inl x) s) tr.

Definition toggle_post {host : Host} (lock_of : hstate host -> string -> bool)
    (w : world host) : exn + unit -> world host -> list (event host) -> Prop :=
  fun o w' tr =>
    clean o tr ->
    forall cam rest s0,
      exec host TslSelectItem (w_host w) = (inr (Some (cam :: rest)), s0) ->
      forall a, In a transform_attrs ->
        lock_of (w_host w') (cam +:+ "." +:+ a) =
        negb (lock_of (w_host w) (cam +:+ ".translateX")).

(** ** Window and shelf *)

(** The functions that only read the scene or build the window. *)
Definition scene_free (f : function_id) : bool :=
  match f with
  | F_list_cameras | F_handler H_show_camera_info | F_add_camera_popup_menu _
  | F_cam_manager_ui | F_add_shelf_button => true
  | F_handler _ => false
  end.

(** The button [add_shelf_button] adds. *)
Definition shelf_button (g : globals) : cmd :=
  ShelfButton "Custom" "Camera Manager" "CamMgr"
    (os_path_join (IMG_PATH g) "main_camera_image.jpg")
    "import camera_manager; camera_manager.cam_manager_ui()".

(** The items of the popup menu. *)
Definition popup_items : list cmd :=
  [MenuItem "Set as Renderable" H_set_renderable_camera;
   MenuItem "Duplicate Camera" H_duplicate_camera;
   MenuItem "Show Camera Info" H_show_camera_info].

(** ** What a handler does when it goes through *)

(** The dialog of [show_camera_info]. *)
Definition info_dialog (msg : string) : cmd :=
  ConfirmDialog "Camera Info" msg ["OK"] None None "information".

(** [mutations tr h cmds]: [cmds] are the mutating commands of handler [h]
    when it goes all the way through, with the arguments that the answers
    recorded in the trace [tr] give them: the first selected entry, the
    text of the prompt, the lock read from translateX, the first path of
    the file dialog, the listed shapes, the first shape of the selected
    camera, the first node that [duplicate] returned. *)
Inductive mutations {host : Host} (tr : list (event host)) :
    handler_id -> list cmd -> Prop :=
| mut_create : mutations tr H_create_camera [Camera]
| mut_delete n rest s :
    In (Ev TslSelectItem (inr (Some (n :: rest))) s) tr ->
    mutations tr H_delete_camera [Delete n]
| mut_rename n rest s new_name s' :
    In (Ev TslSelectItem (inr (Some (n :: rest))) s) tr ->
    In (Ev PromptDialogText (inr new_name) s') tr ->
    mutations tr H_rename_camera [Rename n new_name]
| mut_toggle cam rest s b s' :
    In (Ev TslSelectItem (inr (Some (cam :: rest))) s) tr ->
    In (Ev (GetAttrLock (cam +:+ ".translateX")) (inr b) s') tr ->
    mutations tr H_toggle_lock_camera (lock_cmds cam (negb b))
| mut_export sel s path rest s' :
    In (Ev TslSelectItem (inr (Some sel)) s) tr ->
    In (Ev (FileDialog2 0 "Export Cameras" "Maya ASCII (*.ma)")
          (inr (Some (path :: rest))) s') tr ->
    mutations tr H_export_cameras [Select sel; FileExportSelected path]
| mut_import path rest s :
    In (Ev (FileDialog2 1 "Import Cameras" "Maya ASCII (*.ma)")
          (inr (Some (path :: rest))) s) tr ->
    mutations tr H_import_cameras [FileImport path]
| mut_set_renderable cam rest s shapes s1 sh others s2 :
    In (Ev TslSelectItem (inr (Some (cam :: rest))) s) tr ->
    In (Ev Ls_camera (inr shapes) s1) tr ->
    In (Ev (ListRelativesShapes cam) (inr (Some (sh :: others))) s2) tr ->
    mutations tr H_set_renderable_camera
      (reset_cmds shapes ++ [SetAttr (sh +:+ ".renderable") 1])
| mut_duplicate cam rest s new_cam others s' :
    In (Ev TslSelectItem (inr (Some (cam :: rest))) s) tr ->
    In (Ev (Duplicate cam) (inr (new_cam :: others)) s') tr ->
    mutations tr H_duplicate_camera
      [Duplicate cam; Rename new_cam (cam +:+ "_copy#")]
| mut_info cam rest s msg r s' :
    In (Ev TslSelectItem (inr (Some (cam :: rest))) s) tr ->
    In (Ev (info_dialog msg) r s') tr ->
    mutations tr H_show_camera_info [].

(** An answer that makes a handler return before its operation: nothing is
    selected, or the user turned a dialog down. *)
Definition blocking {host : Host} (e : event host) : bool :=
  declined e ||
  match e with
  | Ev c r _ =>
      match c return exn + ans c -> bool with
      | TslSelectItem => fun r =>
          match r with
          | inr v => negb (truthy v)
          | inl _ => false
          end
      | _ => fun _ => false
      end r
  end.

Definition unblocked {host : Host} (tr : list (event host)) : Prop :=
  Forall (fun e => blocking e = false) tr.

(** [unblocked] as a test, for runs on a concrete host. *)
Definition unblockedb {host : Host} (tr : list (event host)) : bool :=
  forallb (fun e => negb (blocking e)) tr.

(** A clean run either was not blocked and did its operation, or was
    blocked and mutated nothing. *)
Definition operation_post {host : Host} (h : handler_id) :
    exn + unit -> world host -> list (event host) -> Prop :=
  fun o _ tr =>
    clean o tr ->
    (unblocked tr /\ mutations tr h (mutating_cmds tr)) \/
    (~ unblocked tr /\ mutating_cmds tr = []).

(** ** When the list is refreshed *)

(** The host command after which a handler refreshes the list: its last
    mutating command. *)
Definition refresh_trigger (h : handler_id) (c : cmd) : bool :=
  match h, c with
  | H_create_camera, Camera => true
  | H_delete_camera, Delete _ => true
  | H_rename_camera, Rename _ _ => true
  | H_import_cameras, FileImport _ => true
  | H_duplicate_camera, Rename _ _ => true
  | _, _ => false
  end.

(** [refreshed h g tr]: in the trace [tr], every trigger of [h] that
    returned is followed at once by a run of [list_cameras] from the state
    it left. *)
Fixpoint refreshed {host : Host} (h : handler_id) (g : globals)
    (tr : list (event host)) : Prop :=
  match tr with
  | [] => True
  | e :: tl =>
      (if (refresh_trigger h (ev_cmd e) && ev_ok e)%bool
       then exists post', tl = res_trace (list_cameras (mkWorld g (ev_post e))) ++ post'
       else True) /\
      refreshed h g tl
  end.

(** [edits_follow h seen tr]: the scroll list is edited in [tr] only after
    a trigger of [h] has returned ([seen]: one already has). *)
Fixpoint edits_follow {host : Host} (h : handler_id) (seen : bool)
    (tr : list (event host)) : Prop :=
  match tr with
  | [] => True
  | e :: tl =>
      (is_list_edit (ev_cmd e) = true -> seen = true) /\
      edits_follow h (seen || (refresh_trigger h (ev_cmd e) && ev_ok e))%bool tl
  end.

(** ** Runs decided by the host *)



(** ** More hosts and scenes for the examples *)

Module Stale.

(** A host without state in which the selected entry "cam1" names a node
    that is gone: the selection query and the dialogs answer (the user
    confirms the deletion and cancels the rename prompt), every other
    command raises. *)
Definition answer (c : cmd) : exn + ans c :=
  match c return exn + ans c with
  | TslSelectItem => inr (Some ["cam1"])
  | ConfirmDialog t _ _ _ _ _ =>
      inr (if String.eqb t "Delete Camera?" then "Yes" else "OK")
  | PromptDialog _ _ _ _ _ _ => inr "Cancel"
  | _ => inl (Scene.no_object "cam1")
  end.

Definition stale_host : Host := mkHost unit (fun c _ => (answer c, tt)).

Definition at_stale : world stale_host :=
  @mkWorld stale_host (module_init "/proj/scripts") tt.

End Stale.

Module Cases.
Import Scene Examples.

(** [studio] with the renderable attribute of the default camera locked. *)
Definition locked_studio : scene :=
  set_lock studio {[ "perspShape.renderable" := true ]}.

(** [studio] where the user types the name of the default camera into the
    rename prompt. *)
Definition renaming_studio : scene :=
  mkScene (sc_cameras studio) (sc_attr studio) (sc_lock studio)
    (sc_items studio) (sc_selected studio) ["OK"; "OK"] "persp" (sc_files studio).

End Cases.

(** ** Running programs: general facts *)

Section Facts.

Context {host : Host}.

Implicit Types (w : world host) (tr : list (event host)).

Lemma run_bind {A B} (m : M host A) (k : A -> M host B) w :
  bind m k w =
  match res_out (m w) with
  | inl e => mkRes (inl e) (res_world (m w)) (res_trace (m w))
  | inr a =>
      mkRes (res_out (k a (res_world (m w)))) (res_world (k a (res_world (m w))))
        (res_trace (m w) ++ res_trace (k a (res_world (m w))))
  end.
Proof. reflexivity. Qed.

Lemma run_call c w :
  call c w =
  mkRes (fst (exec host c (w_host w)))
    (mkWorld (w_globals w) (snd (exec host c (w_host w))))
    [Ev c (fst (exec host c (w_host w))) (snd (exec host c (w_host w)))].
Proof. unfold call. destruct (exec host c (w_host w)); reflexivity. Qed.

(** *** The module-level state is never written *)










End Facts.


Section Globals.

Context {host : Host}.






End Globals.


Ltac unfold_handlers :=
  unfold create_camera, delete_camera, rename_camera, toggle_lock_camera,
    export_cameras, import_cameras, set_renderable_camera, duplicate_camera,
    show_camera_info.

(** ** Rules of the run calculus *)

Section WP.
Context {host : Host}.
Implicit Types (w : world host).

Lemma wp_ret {A} (a : A) post w : post (inr a) w [] -> wp (ret a) post w.
Proof. (intros HH; exact HH). Qed.

Lemma wp_raise {A} e (post : exn + A -> _) w : post (inl e) w [] -> wp (raise e) post w.
Proof. (intros HH; exact HH). Qed.

Lemma wp_read {A} (f : globals -> A) post w :
  post (inr (f (w_globals w))) w [] -> wp (read_global f) post w.
Proof. (intros HH; exact HH). Qed.

Lemma wp_call c post w :
  (forall r s', exec host c (w_host w) = (r, s') ->
                post r (mkWorld (w_globals w) s') [Ev c r s']) ->
  wp (call c) post w.
Proof.
  intros H. unfold wp. rewrite run_call. cbn.
  apply H. destruct (exec host c (w_host w)); reflexivity.
Qed.

Lemma wp_bind {A B} (m : M host A) (k : A -> M host B)
    (post : exn + B -> world host -> list (event host) -> Prop) w :
  wp m (fun o w' tr =>
          match o with
          | inl e => post (inl e) w' tr
          | inr a => wp (k a) (fun o' w'' tr' => post o' w'' (tr ++ tr')) w'
          end) w ->
  wp (bind m k) post w.
Proof.
  unfold wp. rewrite run_bind. destruct (res_out (m w)); (intros HH; exact HH).
Qed.

Lemma wp_try {A} (body : M host A) (catches : exn -> bool) (handler : exn -> M host A)
    (post : exn + A -> world host -> list (event host) -> Prop) w :
  wp body (fun o w' tr =>
             match o with
             | inl e =>
                 if catches e
                 then wp (handler e) (fun o' w'' tr' => post o' w'' (tr ++ tr')) w'
                 else post (inl e) w' tr
             | inr a => post (inr a) w' tr
             end) w ->
  wp (try_except body catches handler) post w.
Proof.
  unfold wp, try_except.
  destruct (body w) as [[e|a] w' tr]; cbn; [destruct (catches e)|]; (intros HH; exact HH).
Qed.

Lemma wp_run {A} (m : M host A) post w :
  post (res_out (m w)) (res_world (m w)) (res_trace (m w)) -> wp m post w.
Proof. intros H. exact H. Qed.

End WP.

Ltac wp_step :=
  lazymatch goal with
  | |- wp (bind _ _) _ _ => apply wp_bind
  | |- wp (try_except _ _ _) _ _ => apply wp_try
  | |- wp (call ?c) _ _ =>
      let E := fresh "E" in apply (wp_call c); intros [?|?] ? E
  | |- wp (ret _) _ _ => apply wp_ret
  | |- wp (raise _) _ _ => apply wp_raise
  | |- wp (read_global _) _ _ => apply wp_read
  | |- wp (show_error _) _ _ => unfold show_error
  | |- wp (subscript0 ?v) _ _ =>
      first [ is_var v; destruct v as [[|? ?]|]
            | lazymatch v with Some ?l => is_var l; destruct l as [|? ?] end
            | idtac ];
      lazymatch goal with
      | |- wp (subscript0 (Some (?x :: _))) ?post ?w => change (wp (ret x) post w)
      | |- wp (subscript0 (Some [])) ?post ?w =>
          change (wp (raise (mkExn IndexError "list index out of range")) post w)
      | |- wp (subscript0 None) ?post ?w =>
          change (wp (raise (mkExn TypeError "'NoneType' object is not subscriptable"))
                    post w)
      end
  | |- wp (if truthy ?v then _ else _) _ _ =>
      is_var v; destruct v as [[|? ?]|];
      lazymatch goal with
      | |- wp (if truthy (Some (_ :: _)) then ?A else _) ?post ?w => change (wp A post w)
      | |- wp (if truthy _ then _ else ?B) ?post ?w => change (wp B post w)
      end
  | |- wp (if negb (truthy ?v) then _ else _) _ _ =>
      is_var v; destruct v as [[|? ?]|];
      lazymatch goal with
      | |- wp (if negb (truthy (Some (_ :: _))) then _ else ?B) ?post ?w =>
          change (wp B post w)
      | |- wp (if negb (truthy _) then ?A else _) ?post ?w => change (wp A post w)
      end
  | |- wp (if ?b then _ else _) _ _ =>
      first [ is_var b; destruct b
            | let B := fresh "B" in destruct b eqn:B ]
  | |- if ?b then _ else _ =>
      let B := fresh "B" in destruct b eqn:B
  | |- wp list_cameras _ _ =>
      let Hlc := fresh "Hlc" in
      apply wp_run; cbn beta;
      destruct (res_out (list_cameras _)) as [?|[]] eqn:Hlc
  end;
  cbn [app w_globals w_host].


(** ** Which commands a program issues *)

Section Emits.

Context {host : Host}.
Variable P : cmd -> bool.

Lemma eo_ret {A} (a : A) : emits_only P (@ret host A a).
Proof. intros w. constructor. Qed.

Lemma eo_raise {A} e : emits_only P (@raise host A e).
Proof. intros w. constructor. Qed.

Lemma eo_read {A} (f : globals -> A) : emits_only P (@read_global host A f).
Proof. intros w. constructor. Qed.

Lemma eo_call c : P c = true -> emits_only P (@call host c).
Proof. intros Hc w. rewrite run_call. cbn. repeat constructor. exact Hc. Qed.

Lemma eo_bind {A B} (m : M host A) (k : A -> M host B) :
  emits_only P m -> (forall a, emits_only P (k a)) -> emits_only P (bind m k).
Proof.
  intros Hm Hk w. rewrite run_bind.
  destruct (res_out (m w)) as [e|a]; cbn [res_trace].
  - apply Hm.
  - apply Forall_app. split; [apply Hm | apply Hk].
Qed.

Lemma eo_try {A} (body : M host A) catches handler :
  emits_only P body -> (forall e, emits_only P (handler e)) ->
  emits_only P (try_except body catches handler).
Proof.
  intros Hb Hh w. unfold try_except.
  destruct (res_out (body w)) as [e|a]; [destruct (catches e)|]; cbn [res_trace];
    try apply Hb.
  apply Forall_app. split; [apply Hb | apply Hh].
Qed.

Lemma eo_for_each {A} (l : list A) (body : A -> M host unit) :
  (forall x, emits_only P (body x)) -> emits_only P (for_each l body).
Proof.
  intros Hb. induction l as [|x l IH]; cbn [for_each].
  - apply eo_ret.
  - apply eo_bind; [apply Hb | intros _; exact IH].
Qed.

Lemma eo_comprehension {A B} (l : list A) (f : A -> M host B) :
  (forall x, emits_only P (f x)) -> emits_only P (comprehension l f).
Proof.
  intros Hf. induction l as [|x l IH]; cbn [comprehension].
  - apply eo_ret.
  - apply eo_bind; [apply Hf | intros y].
    apply eo_bind; [exact IH | intros ys; apply eo_ret].
Qed.

Lemma eo_subscript0 v : emits_only P (@subscript0 host v).
Proof. destruct v as [[|x l]|]; cbn [subscript0]; auto using eo_ret, eo_raise. Qed.

End Emits.

Lemma emits_only_weaken {host : Host} {A} (P Q : cmd -> bool) (m : M host A) :
  (forall c, P c = true -> Q c = true) -> emits_only P m -> emits_only Q m.
Proof.
  intros HPQ Hm w. eapply Forall_impl; [apply Hm|]. cbn. intros e. apply HPQ.
Qed.

Ltac eo_step :=
  lazymatch goal with
  | |- emits_only _ (bind _ _) => apply eo_bind; [|intros ?]
  | |- emits_only _ (try_except _ _ _) => apply eo_try; [|intros ?]
  | |- emits_only _ (for_each _ _) => apply eo_for_each; intros ?
  | |- emits_only _ (comprehension _ _) => apply eo_comprehension; intros ?
  | |- emits_only ?P (call ?c) => exact (eo_call P c eq_refl)
  | |- emits_only _ (ret _) => apply eo_ret
  | |- emits_only _ (raise _) => apply eo_raise
  | |- emits_only _ (read_global _) => apply eo_read
  | |- emits_only _ (subscript0 _) => apply eo_subscript0
  | |- emits_only _ (show_error _) => unfold show_error
  | |- emits_only _ (if ?b then _ else _) => destruct b
  | |- emits_only _ (let _ := _ in _) => cbv zeta
  end.

Lemma list_cameras_cmds {host : Host} : emits_only is_list_cmd (@list_cameras host).
Proof. unfold list_cameras. repeat eo_step. Qed.

Lemma list_cameras_non_mutating {host : Host} (w : world host) :
  Forall non_mutating (res_trace (list_cameras w)).
Proof.
  eapply Forall_impl; [apply list_cameras_cmds|].
  intros e. unfold non_mutating. destruct (ev_cmd e); cbn; congruence.
Qed.

Lemma list_cameras_no_error_dialog {host : Host} (w : world host) :
  Forall no_error_dialog (res_trace (list_cameras w)).
Proof.
  eapply Forall_impl; [apply list_cameras_cmds|].
  intros e. unfold no_error_dialog. destruct (ev_cmd e); cbn; congruence.
Qed.

(** ** Exceptions of host commands end the run they are in *)

Section Propagation.

Context {host : Host}.

Lemma raise_last_cast {A B} x (tr : list (event host)) :
  raise_last (inl x : exn + A) tr -> raise_last (inl x : exn + B) tr.
Proof.
  induction tr as [|e tl IH]; cbn; [trivial|].
  destruct (ev_exn e); [|exact IH].
  intros [-> [= ->]]. auto.
Qed.

Lemma raise_last_quiet {A} (a : A) (tr : list (event host)) :
  raise_last (inr a) tr <-> Forall (fun e => ev_exn e = None) tr.
Proof.
  induction tr as [|e tl IH]; cbn.
  - split; constructor.
  - destruct (ev_exn e) eqn:E.
    + split; [intros [_ [=]] | intros H; inversion H; congruence].
    + rewrite IH. split; [intros H; constructor; assumption | intros H; inversion H; assumption].
Qed.

Lemma raise_last_app {A B} (a : A) (o : exn + B) (tr1 tr2 : list (event host)) :
  raise_last (inr a) tr1 -> raise_last o tr2 -> raise_last o (tr1 ++ tr2).
Proof.
  induction tr1 as [|e tl IH]; cbn; [trivial|].
  destruct (ev_exn e); [intros [_ [=]] | exact IH].
Qed.

Lemma pr_ret {A} (a : A) : propagating (@ret host A a).
Proof. intros w. exact I. Qed.

Lemma pr_raise {A} e : propagating (@raise host A e).
Proof. intros w. exact I. Qed.

Lemma pr_call c : propagating (@call host c).
Proof.
  intros w. rewrite run_call. cbn.
  destruct (exec host c (w_host w)) as [[x|a] s]; cbn; auto.
Qed.

Lemma pr_bind {A B} (m : M host A) (k : A -> M host B) :
  propagating m -> (forall a, propagating (k a)) -> propagating (bind m k).
Proof.
  intros Hm Hk w. rewrite run_bind. specialize (Hm w).
  destruct (res_out (m w)) as [e|a]; cbn [res_out res_trace].
  - apply raise_last_cast with (1 := Hm).
  - eapply raise_last_app; [exact Hm | apply Hk].
Qed.

Lemma pr_for_each {A} (l : list A) (body : A -> M host unit) :
  (forall x, propagating (body x)) -> propagating (for_each l body).
Proof.
  intros Hb. induction l as [|x l IH]; cbn [for_each].
  - apply pr_ret.
  - apply pr_bind; [apply Hb | intros _; exact IH].
Qed.

Lemma pr_comprehension {A B} (l : list A) (f : A -> M host B) :
  (forall x, propagating (f x)) -> propagating (comprehension l f).
Proof.
  intros Hf. induction l as [|x l IH]; cbn [comprehension].
  - apply pr_ret.
  - apply pr_bind; [apply Hf | intros y].
    apply pr_bind; [exact IH | intros ys; apply pr_ret].
Qed.

Lemma pr_subscript0 v : propagating (@subscript0 host v).
Proof. destruct v as [[|x l]|]; cbn [subscript0]; auto using pr_ret, pr_raise. Qed.

Lemma list_cameras_propagating : propagating (@list_cameras host).
Proof.
  unfold list_cameras.
  apply pr_bind; [apply pr_call | intros cams].
  apply pr_bind; [apply pr_call | intros _].
  apply pr_bind.
  - apply pr_comprehension. intros c.
    apply pr_bind; [apply pr_call | intros v; apply pr_subscript0].
  - intros ps. apply pr_for_each. intros p. exact (pr_call (TslAppend p)).
Qed.

End Propagation.

(** ** The camera list *)

Section ListCameras.

Context {host : Host}.

Lemma comprehension_resolved (cams : list string) (w : world host) ps :
  res_out (comprehension cams
             (fun c => ps <- call (ListRelativesParent c) ;; subscript0 ps) w) = inr ps ->
  resolved cams
    (res_trace (comprehension cams
                  (fun c => ps <- call (ListRelativesParent c) ;; subscript0 ps) w)) ps.
Proof.
  revert w ps. induction cams as [|c cams IH]; intros w ps; cbn [comprehension].
  - cbn. intros [= <-]. constructor.
  - rewrite run_bind. rewrite run_bind, run_call. cbn.
    destruct (exec host (ListRelativesParent c) (w_host w)) as [[x|[[|p rest]|]] s]; cbn;
      try discriminate.
    rewrite run_bind.
    specialize (IH (mkWorld (w_globals w) s)).
    destruct (res_out (comprehension cams _ _)) as [x|qs]; cbn; try discriminate.
    intros [= <-]. rewrite app_nil_r. constructor. apply IH. reflexivity.
Qed.

Lemma for_each_appended (ps : list string) (w : world host) :
  res_out (for_each ps (fun cam => call (TslAppend cam)) w) = inr tt ->
  appended ps (res_trace (for_each ps (fun cam => call (TslAppend cam)) w)).
Proof.
  revert w. induction ps as [|p ps IH]; intros w; cbn [for_each].
  - intros _. constructor.
  - rewrite run_bind, run_call. cbn.
    destruct (exec host (TslAppend p) (w_host w)) as [[x|[]] s]; cbn; try discriminate.
    intros H. constructor. apply IH, H.
Qed.

End ListCameras.

(** C5 (amended). A run of [list_cameras] that returns issues, in this order: the
    listing of the camera shapes; the removal of all entries of the scroll
    list; for the shapes in the order the listing gave them, one parent
    query per shape; and for the first parent of each answer, in the same
    order, one append: nothing else, one entry per camera shape. *)
Theorem list_cameras_trace (host : Host) (w : world host) :
  res_out (list_cameras w) = inr tt ->
  exists cams s1 s2 tr_q ps tr_a,
    exec host Ls_camera (w_host w) = (inr cams, s1) /\
    res_trace (list_cameras w) =
      Ev Ls_camera (inr cams) s1 :: Ev TslRemoveAll (inr tt) s2 :: tr_q ++ tr_a /\
    resolved cams tr_q ps /\ appended ps tr_a.
Proof.
  unfold list_cameras. rewrite run_bind, run_call.
  destruct (exec host Ls_camera (w_host w)) as [[x|cams] s1]; cbn; try discriminate.
  rewrite run_bind, run_call; cbn [w_host w_globals].
  destruct (exec host TslRemoveAll s1) as [[x|[]] s2]; cbn; try discriminate.
  rewrite run_bind.
  pose proof (comprehension_resolved cams (mkWorld (w_globals w) s2)) as Hq.
  destruct (res_out (comprehension cams _ _)) as [x|ps]; cbn; try discriminate.
  intros Hout. exists cams, s1, s2. eexists. exists ps. eexists.
  split; [reflexivity|]. split; [reflexivity|].
  split; [apply Hq; reflexivity | apply for_each_appended, Hout].
Qed.

Lemma list_cameras_trace_witness :
  res_out (list_cameras (Examples.at_scene Examples.studio)) = inr tt /\
  exists cams s1 s2 tr_q ps tr_a,
    exec Scene.scene_host Ls_camera Examples.studio = (inr cams, s1) /\
    res_trace (list_cameras (Examples.at_scene Examples.studio)) =
      Ev Ls_camera (inr cams) s1 :: Ev TslRemoveAll (inr tt) s2 :: tr_q ++ tr_a /\
    resolved cams tr_q ps /\ appended ps tr_a.
Proof.
  split; [reflexivity|].
  apply (list_cameras_trace Scene.scene_host (Examples.at_scene Examples.studio)).
  reflexivity.
Defined.

(** ** Nothing selected *)

(** C8. When the scroll list reports no selected item, a
    selection-dependent handler issues no mutating host command, and every
    part of the host state that non-mutating commands leave alone is after
    the run what it was before. *)
Theorem no_selection_no_mutation (host : Host) (h : handler_id) (w : world host)
    (sel : option (list string)) (s' : hstate host) :
  selection_dependent h = true ->
  exec host TslSelectItem (w_host w) = (inr sel, s') ->
  truthy sel = false ->
  Forall non_mutating (res_trace (handler_of h w)) /\
  (forall (S : Type) (scene_of : hstate host -> S),
     (forall c s, is_mutating c = false -> scene_of (snd (exec host c s)) = scene_of s) ->
     scene_of (w_host (res_world (handler_of h w))) = scene_of (w_host w)).
Proof.
  intros Hh Hsel Hno.
  assert (Hfr : forall (S : Type) (scene_of : hstate host -> S),
     (forall c s, is_mutating c = false -> scene_of (snd (exec host c s)) = scene_of s) ->
     scene_of s' = scene_of (w_host w)).
  { intros S sc Hf. rewrite <- (Hf TslSelectItem (w_host w) eq_refl), Hsel. reflexivity. }
  destruct h; try discriminate Hh; cbn [handler_of]; unfold_handlers;
    rewrite run_bind, run_call, Hsel; cbn; rewrite Hno; cbn.
  all: try (split; [repeat constructor | exact Hfr]).
  all: rewrite run_call; cbn.
  all: split; [repeat constructor|].
  all: intros S sc Hf; etrans; [exact (Hf (Warning _) _ eq_refl) | apply Hfr, Hf].
Qed.

Lemma no_selection_no_mutation_witness :
  Forall non_mutating
    (res_trace (handler_of H_delete_camera (Examples.at_scene Examples.studio_nosel))) /\
  (forall (S : Type) (scene_of : Scene.scene -> S),
     (forall c s, is_mutating c = false ->
                  scene_of (snd (exec Scene.scene_host c s)) = scene_of s) ->
     scene_of (w_host (res_world
       (handler_of H_delete_camera (Examples.at_scene Examples.studio_nosel)))) =
     scene_of Examples.studio_nosel).
Proof.
  apply (no_selection_no_mutation Scene.scene_host H_delete_camera
           (Examples.at_scene Examples.studio_nosel) None Examples.studio_nosel);
    reflexivity.
Defined.

(** ** The window *)


(** ** Refreshing the list *)

Section Refresh.
Context {host : Host}.
Implicit Types (w : world host) (tr : list (event host)).

Lemma not_clean_raise {A} x tr : ~ clean (inl x : exn + A) tr.
Proof. intros [[a [=]] _]. Qed.

Lemma not_clean_dialog {A} (o : exn + A) tr e :
  In e tr -> is_error_title (ev_cmd e) = true -> ~ clean o tr.
Proof.
  intros Hin He [_ HF]. rewrite Forall_forall in HF.
  apply list_elem_of_In, HF in Hin. unfold no_error_dialog in Hin. congruence.
Qed.

End Refresh.

(** Finds an "Error" dialog in the trace of the goal [In ?e tr]. *)
Ltac dialog_in tr :=
  lazymatch tr with
  | Ev (error_dialog _) _ _ :: _ => left; reflexivity
  | Ev (ConfirmDialog "Error" _ _ _ _ _) _ _ :: _ => left; reflexivity
  | _ :: ?tl => right; dialog_in tl
  | _ ++ ?tl => apply in_or_app; right; dialog_in tl
  end.

Ltac in_trace :=
  lazymatch goal with
  | |- In _ ?tr => dialog_in tr
  end.

Lemma no_list_edit {host : Host} (h : handler_id) :
  refreshing h = false ->
  emits_only (fun c => negb (is_list_edit c)) (@handler_of host h).
Proof.
  destruct h; try discriminate; intros _; cbn [handler_of]; unfold_handlers;
    repeat eo_step.
Qed.

Lemma cleanb_clean {host : Host} {A} (o : exn + A) (tr : list (event host)) :
  cleanb o tr = true -> clean o tr.
Proof.
  unfold cleanb, clean. destruct o as [x|a]; [discriminate|].
  intros H. split; [eauto|].
  apply Forall_forall. intros e He. apply list_elem_of_In in He.
  rewrite forallb_forall in H. specialize (H e He).
  unfold no_error_dialog. destruct (is_error_title (ev_cmd e)); [discriminate | reflexivity].
Qed.

Lemma list_cameras_starts {host : Host} (w : world host) :
  head (map ev_cmd (res_trace (list_cameras w))) = Some Ls_camera.
Proof.
  unfold list_cameras. rewrite run_bind, run_call.
  destruct (fst (exec host Ls_camera (w_host w))); reflexivity.
Qed.

Lemma refresh_starts_listing {host : Host} (m : M host unit) (w : world host) :
  refreshes_after_mutation m w ->
  first_after_mutation (res_trace (m w)) = None \/
  first_after_mutation (res_trace (m w)) = Some Ls_camera.
Proof.
  unfold refreshes_after_mutation, first_after_mutation. intros H.
  destruct (after_last_mutating (res_trace (m w))) as [[e post]|]; [right | left; reflexivity].
  destruct (H e post eq_refl) as [post' ->].
  pose proof (list_cameras_starts (world_after w e)) as Hs.
  destruct (res_trace (list_cameras (world_after w e))); [discriminate Hs | exact Hs].
Qed.

(** C1 as stated fails: a clean run of [toggle_lock_camera] sets the nine
    locks and then only shows its message. *)
Lemma toggle_lock_does_not_refresh :
  clean (res_out (toggle_lock_camera (Examples.at_scene Examples.studio)))
    (res_trace (toggle_lock_camera (Examples.at_scene Examples.studio))) /\
  ~ refreshes_after_mutation toggle_lock_camera (Examples.at_scene Examples.studio).
Proof.
  split; [apply cleanb_clean; vm_compute; reflexivity|].
  intros H. apply refresh_starts_listing in H.
  assert (Hc : first_after_mutation
                 (res_trace (toggle_lock_camera (Examples.at_scene Examples.studio))) =
               Some (InViewMessage "Camera <hl>cam1</hl> transforms locked"))
    by (vm_compute; reflexivity).
  rewrite Hc in H. destruct H as [H|H]; discriminate H.
Qed.

(** ** The mutating commands of a run *)

Section MutatingCmds.
Context {host : Host}.
Implicit Types (w : world host) (tr : list (event host)).

Lemma mc_cons e tr :
  mutating_cmds (e :: tr) =
  (if is_mutating (ev_cmd e) then [ev_cmd e] else []) ++ mutating_cmds tr.
Proof.
  unfold mutating_cmds. cbn [map List.filter].
  destruct (is_mutating (ev_cmd e)); reflexivity.
Qed.

Lemma mc_app tr1 tr2 :
  mutating_cmds (tr1 ++ tr2) = mutating_cmds tr1 ++ mutating_cmds tr2.
Proof. unfold mutating_cmds. rewrite map_app. apply List.filter_app. Qed.

Lemma mc_quiet tr : Forall non_mutating tr -> mutating_cmds tr = [].
Proof.
  induction 1 as [|e tl He _ IH]; [reflexivity|].
  rewrite mc_cons, IH. unfold non_mutating in He. rewrite He. reflexivity.
Qed.

Lemma mc_list_cameras w : mutating_cmds (res_trace (list_cameras w)) = [].
Proof. apply mc_quiet, list_cameras_non_mutating. Qed.

(** *** The first loop of [set_renderable_camera] *)

Lemma run_reset (c : string) w :
  let r := exec host (SetAttr (c +:+ ".renderable") 0) (w_host w) in
  reset_renderable c w =
  mkRes (inr tt) (mkWorld (w_globals w) (snd r))
    [Ev (SetAttr (c +:+ ".renderable") 0) (fst r) (snd r)].
Proof.
  cbv zeta. unfold reset_renderable, try_except. rewrite run_call.
  cbn [res_out res_world res_trace].
  destruct (fst (exec host _ (w_host w))) as [x|[]]; reflexivity.
Qed.

Lemma reset_loop_returns (cams : list string) w :
  res_out (for_each cams reset_renderable w) = inr tt.
Proof.
  revert w. induction cams as [|c cams IH]; intros w; cbn [for_each]; [reflexivity|].
  rewrite run_bind, run_reset. cbn [res_out res_world res_trace]. apply IH.
Qed.

Lemma reset_loop_cmds (cams : list string) w :
  map ev_cmd (res_trace (for_each cams reset_renderable w)) = reset_cmds cams.
Proof.
  revert w. induction cams as [|c cams IH]; intros w; cbn [for_each]; [reflexivity|].
  rewrite run_bind, run_reset. cbn [res_out res_world res_trace app map ev_cmd reset_cmds].
  rewrite IH. reflexivity.
Qed.

Lemma mc_reset_loop (cams : list string) w :
  mutating_cmds (res_trace (for_each cams reset_renderable w)) = reset_cmds cams.
Proof.
  unfold mutating_cmds. rewrite reset_loop_cmds.
  induction cams as [|c cams IH]; [reflexivity|].
  cbn [reset_cmds map List.filter is_mutating]. f_equal. exact IH.
Qed.

End MutatingCmds.

Ltac mc_norm :=
  repeat first [ rewrite mc_list_cameras | rewrite mc_cons | rewrite mc_app ];
  change (mutating_cmds []) with (@nil cmd);
  cbn [ev_cmd is_mutating error_dialog app].

(** Unrolls a loop over a literal list. *)
Ltac wp_loop :=
  lazymatch goal with
  | |- wp (for_each (?x :: ?l) ?body) ?post ?w =>
      change (wp (bind (body x) (fun _ => for_each l body)) post w); cbn beta
  | |- wp (for_each [] _) ?post ?w => change (wp (ret tt) post w)
  end.

(** Runs the first loop of [set_renderable_camera] as a whole. *)
Ltac wp_reset :=
  lazymatch goal with
  | |- wp (for_each ?l _) ?post ?w =>
      is_var l;
      change (wp (for_each l reset_renderable) post w);
      apply wp_run; rewrite (reset_loop_returns l w); cbv beta iota
  end.

Section Mutations.
Context {host : Host}.
Implicit Types (w : world host).

Lemma single_command_at_most_one (h : handler_id) w :
  single_command h = true -> wp (handler_of h) at_most_one w.
Proof.
  destruct h; try discriminate; intros _; cbn [handler_of]; unfold_handlers;
    repeat wp_step; unfold at_most_one; cbn beta; mc_norm; cbn [length]; lia.
Qed.

End Mutations.

(** X2. [create_camera], [delete_camera], [rename_camera],
    [import_cameras] and [show_camera_info] issue at most one mutating
    host command per invocation, whatever the host does. *)
Theorem single_command_handlers (host : Host) (h : handler_id) (w : world host) :
  single_command h = true ->
  (length (mutating_cmds (res_trace (handler_of h w))) <= 1)%nat.
Proof. intros Hs. exact (single_command_at_most_one h w Hs). Qed.

Lemma single_command_handlers_witness :
  (length (mutating_cmds
             (res_trace (handler_of H_delete_camera (Examples.at_scene Examples.studio))))
   <= 1)%nat.
Proof.
  apply (single_command_handlers Scene.scene_host H_delete_camera
           (Examples.at_scene Examples.studio)).
  reflexivity.
Defined.

(** ** What becomes of an exception *)

Section Handled.
Context {host : Host}.
Implicit Types (w : world host) (e : event host) (tr pre post : list (event host))
  (o : exn + unit) (s : hstate host).

Lemma guarded_error_dialog h x : guarded h (error_dialog x) = false.
Proof. destruct h; reflexivity. Qed.

Lemma suppressed_error_dialog h x : suppressed h (error_dialog x) = false.
Proof. destruct h; reflexivity. Qed.

Lemma guarded_not_suppressed h c : guarded h c = true -> suppressed h c = false.
Proof.
  destruct h; try reflexivity. destruct c; try reflexivity.
  cbn [guarded suppressed]. intros H%Z.eqb_eq. subst. reflexivity.
Qed.

Lemma handled_cons_ok h o e tr :
  ev_exn e = None -> handled h o tr -> handled h o (e :: tr).
Proof. intros He H. cbn [handled]. rewrite He. exact H. Qed.

Lemma handled_cons_suppressed h o e tr :
  suppressed h (ev_cmd e) = true -> handled h o tr -> handled h o (e :: tr).
Proof.
  intros He H. cbn [handled]. rewrite He. destruct (ev_exn e); exact H.
Qed.

Lemma handled_last h e x :
  ev_exn e = Some x -> suppressed h (ev_cmd e) = false ->
  (guarded h (ev_cmd e) && caught h x)%bool = false ->
  handled h (inl x) [e].
Proof. intros He Hs Hg. cbn [handled]. rewrite He, Hs, Hg. auto. Qed.

Lemma handled_dialog h x r s : handled h (after_dialog r) [Ev (error_dialog x) r s].
Proof.
  destruct r as [y|a]; [|exact I].
  apply handled_last; [reflexivity | apply suppressed_error_dialog |].
  cbn [ev_cmd]. rewrite guarded_error_dialog. reflexivity.
Qed.

Lemma handled_caught h e x r s :
  ev_exn e = Some x -> suppressed h (ev_cmd e) = false ->
  (guarded h (ev_cmd e) && caught h x)%bool = true ->
  handled h (after_dialog r) [e; Ev (error_dialog x) r s].
Proof. intros He Hs Hg. cbn [handled]. rewrite He, Hs, Hg. eauto. Qed.

Lemma handled_app_quiet h o tr1 tr2 :
  raise_last (inr tt : exn + unit) tr1 -> handled h o tr2 -> handled h o (tr1 ++ tr2).
Proof.
  intros H1 H2. induction tr1 as [|e tl IH]; [exact H2|].
  cbn [app handled]. cbn [raise_last] in H1.
  destruct (ev_exn e); [destruct H1 as [_ [=]] | exact (IH H1)].
Qed.

Lemma handled_quiet h o tr : raise_last (inr tt : exn + unit) tr -> handled h o tr.
Proof.
  intros H. rewrite <- (app_nil_r tr). apply handled_app_quiet; [exact H | exact I].
Qed.

Lemma handled_app_suppressed h o tr1 tr2 :
  Forall (fun e => suppressed h (ev_cmd e) = true) tr1 ->
  handled h o tr2 -> handled h o (tr1 ++ tr2).
Proof.
  intros H1 H2. induction H1 as [|e tl He _ IH]; [exact H2|].
  cbn [app]. apply handled_cons_suppressed; assumption.
Qed.

Lemma handled_app_raised h x tr r s :
  raise_last (inl x : exn + unit) tr ->
  Forall (fun e => suppressed h (ev_cmd e) = false /\ guarded h (ev_cmd e) = true) tr ->
  caught h x = true ->
  handled h (after_dialog r) (tr ++ [Ev (error_dialog x) r s]).
Proof.
  intros H HF Hx. induction HF as [|e tl [Hs Hg] _ IH]; [apply handled_dialog|].
  cbn [raise_last] in H. destruct (ev_exn e) as [y|] eqn:He.
  - destruct H as [-> [= <-]]. apply handled_caught; [exact He | exact Hs |].
    rewrite Hg, Hx. reflexivity.
  - cbn [app]. apply handled_cons_ok; [exact He | exact (IH H)].
Qed.

Lemma handled_raised_uncaught h x tr :
  raise_last (inl x : exn + unit) tr ->
  Forall (fun e => suppressed h (ev_cmd e) = false) tr ->
  caught h x = false -> handled h (inl x) tr.
Proof.
  intros H HF Hx. induction HF as [|e tl Hs _ IH]; [exact I|].
  cbn [raise_last] in H. destruct (ev_exn e) as [y|] eqn:He.
  - destruct H as [-> [= <-]]. apply handled_last; [exact He | exact Hs |].
    rewrite Hx. apply andb_false_r.
  - apply handled_cons_ok; [exact He | exact (IH H)].
Qed.

Lemma list_cameras_guarded h w :
  refresh_guarded h = true ->
  Forall (fun e => suppressed h (ev_cmd e) = false /\ guarded h (ev_cmd e) = true)
    (res_trace (list_cameras w)).
Proof.
  intros Hh. eapply Forall_impl; [apply list_cameras_cmds|].
  intros e. cbn beta.
  destruct h; try discriminate Hh; destruct (ev_cmd e); cbn; intros; try discriminate;
    split; reflexivity.
Qed.

Lemma list_cameras_not_suppressed h w :
  Forall (fun e => suppressed h (ev_cmd e) = false) (res_trace (list_cameras w)).
Proof.
  eapply Forall_impl; [apply list_cameras_cmds|].
  intros e. cbn beta.
  destruct h; destruct (ev_cmd e); cbn; intros; try discriminate; reflexivity.
Qed.

Lemma reset_loop_suppressed (cams : list string) w :
  Forall (fun e => suppressed H_set_renderable_camera (ev_cmd e) = true)
    (res_trace (for_each cams reset_renderable w)).
Proof.
  revert w. induction cams as [|c cams IH]; intros w; cbn [for_each]; [constructor|].
  rewrite run_bind, run_reset. cbn [res_out res_world res_trace app].
  constructor; [reflexivity | apply IH].
Qed.

Lemma handled_forward h o tr pre c x s post :
  handled h o tr ->
  tr = pre ++ Ev c (inl x) s :: post ->
  suppressed h c = false ->
  (guarded h c && caught h x)%bool = true ->
  exists r s', post = [Ev (error_dialog x) r s'] /\ o = after_dialog r.
Proof.
  intros H -> Hs Hg. induction pre as [|e pre IH].
  - cbn [app handled ev_exn ev_cmd] in H. rewrite Hs, Hg in H. exact H.
  - cbn [app handled] in H. destruct (ev_exn e) as [y|] eqn:He; [|exact (IH H)].
    destruct (suppressed h (ev_cmd e)); [exact (IH H)|].
    exfalso. destruct (guarded h (ev_cmd e) && caught h y)%bool.
    + destruct H as (r & s1 & Heq & _).
      destruct pre as [|e' pre]; cbn [app] in Heq.
      * assert (Hc : c = error_dialog y) by (inversion Heq; reflexivity).
        rewrite Hc, guarded_error_dialog in Hg. discriminate Hg.
      * injection Heq as _ Heq. destruct pre; discriminate Heq.
    + destruct H as [Heq _]. destruct pre; discriminate Heq.
Qed.

Lemma handled_propagate h o tr pre c x s post :
  handled h o tr ->
  tr = pre ++ Ev c (inl x) s :: post ->
  suppressed h c = false ->
  (guarded h c && caught h x)%bool = false ->
  post = [] /\ o = inl x.
Proof.
  intros H -> Hs Hg. induction pre as [|e pre IH].
  - cbn [app handled ev_exn ev_cmd] in H. rewrite Hs, Hg in H. exact H.
  - cbn [app handled] in H. destruct (ev_exn e) as [y|] eqn:He; [|exact (IH H)].
    destruct (suppressed h (ev_cmd e)); [exact (IH H)|].
    destruct (guarded h (ev_cmd e) && caught h y)%bool.
    + destruct H as (r & s1 & Heq & ->).
      destruct pre as [|e' pre]; cbn [app] in Heq.
      * pose proof (f_equal (fun l => match l with e0 :: _ => ev_exn e0 | [] => None end) Heq)
          as Hx.
        pose proof (f_equal (@List.tl _) Heq) as Hp. cbn [List.tl] in Hp.
        cbn beta iota in Hx. cbn [ev_exn] in Hx.
        split; [exact Hp|].
        destruct r as [y'|a]; [|discriminate Hx].
        injection Hx as ->. reflexivity.
      * injection Heq as _ Heq. destruct pre; discriminate Heq.
    + destruct H as [Heq _]. destruct pre; discriminate Heq.
Qed.

End Handled.

Ltac lc_fact w :=
  lazymatch goal with
  | H : res_out (list_cameras w) = _ |- _ =>
      let HP := fresh "HP" in
      pose proof (list_cameras_propagating w) as HP; rewrite H in HP; exact HP
  end.

Ltac caught_tac := first [reflexivity | eassumption].

Ltac hd :=
  lazymatch goal with
  | |- handled _ _ [] => exact I
  | |- handled ?h _ [Ev ?c (inl ?x) ?s1; Ev (error_dialog _) ?r ?s2] =>
      exact (handled_caught h (Ev c (inl x) s1) x r s2 eq_refl eq_refl ltac:(caught_tac))
  | |- handled ?h _ [Ev ?c (inl ?x) ?s1] =>
      exact (handled_last h (Ev c (inl x) s1) x eq_refl eq_refl ltac:(caught_tac))
  | |- handled _ _ (Ev _ (inr _) _ :: _) =>
      apply handled_cons_ok; [reflexivity | hd]
  | |- handled ?h _ (res_trace (list_cameras ?w) ++ [Ev (error_dialog ?x) ?r ?s]) =>
      exact (handled_app_raised h x (res_trace (list_cameras w)) r s ltac:(lc_fact w)
               (list_cameras_guarded h w eq_refl) ltac:(caught_tac))
  | |- handled _ _ (res_trace (list_cameras ?w) ++ _) =>
      apply handled_app_quiet; [lc_fact w | hd]
  | |- handled ?h _ (res_trace (list_cameras ?w)) =>
      first [ apply handled_quiet; lc_fact w
            | apply handled_raised_uncaught;
              [lc_fact w | apply list_cameras_not_suppressed | caught_tac] ]
  | |- handled _ _ (res_trace (for_each _ reset_renderable _) ++ _) =>
      apply handled_app_suppressed; [apply reset_loop_suppressed | hd]
  end.

Ltac hd_leaf := rewrite <- ?app_assoc; cbn [app]; hd.

Ltac absurd_catch :=
  lazymatch goal with
  | B : is_Exception _ = false |- _ =>
      exfalso; clear -B; unfold is_Exception in B; discriminate B
  end.

Lemma handler_handled {host : Host} (h : handler_id) (w : world host) :
  wp (handler_of h) (fun o _ tr => handled h o tr) w.
Proof.
  destruct h; cbn [handler_of]; unfold_handlers.
  - repeat wp_step; try absurd_catch; hd_leaf.
  - repeat wp_step; try absurd_catch; hd_leaf.
  - repeat wp_step; try absurd_catch; hd_leaf.
  - repeat first [wp_step | wp_loop]; try absurd_catch; hd_leaf.
  - repeat wp_step; try absurd_catch; hd_leaf.
  - repeat wp_step; try absurd_catch; hd_leaf.
  - repeat first [wp_step | wp_reset]; try absurd_catch; hd_leaf.
  - repeat wp_step; try absurd_catch; hd_leaf.
  - repeat wp_step; try absurd_catch; hd_leaf.
Qed.

(** X3. When a host command inside the [try] block of a handler raises an
    exception that the [except] clause names (any exception; for
    [delete_camera] and [rename_camera] a [RuntimeError] only), the handler
    issues exactly one more command, the "Error" dialog with the message of
    that exception, and returns; unless the dialog raises, in which case
    its exception is the outcome. *)
Theorem caught_exception_shown_in_dialog (host : Host) (h : handler_id) (w : world host)
    (pre : list (event host)) (c : cmd) (x : exn) (s : hstate host)
    (post : list (event host)) :
  res_trace (handler_of h w) = pre ++ Ev c (inl x) s :: post ->
  guarded h c = true -> caught h x = true ->
  exists r s', post = [Ev (error_dialog x) r s'] /\
               res_out (handler_of h w) = after_dialog r.
Proof.
  intros Htr Hg Hx.
  apply (handled_forward h _ _ pre c x s post (handler_handled h w) Htr).
  - apply guarded_not_suppressed, Hg.
  - rewrite Hg, Hx. reflexivity.
Qed.

Lemma caught_exception_shown_in_dialog_witness :
  exists r s',
    drop 3 (res_trace (handler_of H_delete_camera Stale.at_stale)) =
      [Ev (error_dialog (Scene.no_object "cam1")) r s'] /\
    res_out (handler_of H_delete_camera Stale.at_stale) = after_dialog r.
Proof.
  apply (caught_exception_shown_in_dialog Stale.stale_host H_delete_camera Stale.at_stale
           (take 2 (res_trace (handler_of H_delete_camera Stale.at_stale)))
           (Delete "cam1") (Scene.no_object "cam1") tt); reflexivity.
Defined.

(** X4. An exception of a host command that is outside the [try] block,
    or that the [except] clause does not name, and that is not passed over
    by the first loop of [set_renderable_camera], ends the run: no further
    command is issued, no dialog is shown, and the exception reaches the
    caller of the handler.  This is the case of every command of
    [create_camera], of the selection query and the dialogs of the other
    handlers, and of the "Error" dialog itself. *)
Theorem uncaught_exception_propagates (host : Host) (h : handler_id) (w : world host)
    (pre : list (event host)) (c : cmd) (x : exn) (s : hstate host)
    (post : list (event host)) :
  res_trace (handler_of h w) = pre ++ Ev c (inl x) s :: post ->
  suppressed h c = false ->
  (guarded h c && caught h x)%bool = false ->
  post = [] /\ res_out (handler_of h w) = inl x.
Proof.
  intros Htr Hs Hg.
  exact (handled_propagate h _ _ pre c x s post (handler_handled h w) Htr Hs Hg).
Qed.

Lemma uncaught_exception_propagates_witness :
  res_out (handler_of H_create_camera Examples.at_broken) =
  inl (mkExn RuntimeError "command failed").
Proof.
  apply (uncaught_exception_propagates Scene.broken_host H_create_camera Examples.at_broken
           [] Camera (mkExn RuntimeError "command failed") tt []); reflexivity.
Defined.

(** ** The renderable camera *)

Lemma set_renderable_camera_resets {host : Host} (w : world host) :
  wp set_renderable_camera (fun _ _ tr =>
    forall cam rest s0 shapes s1,
      exec host TslSelectItem (w_host w) = (inr (Some (cam :: rest)), s0) ->
      exec host Ls_camera s0 = (inr shapes, s1) ->
      exists tl,
        map ev_cmd tr =
        TslSelectItem :: Ls_camera :: reset_cmds shapes ++ ListRelativesShapes cam :: tl) w.
Proof.
  unfold set_renderable_camera. repeat first [wp_step | wp_reset].
  all: intros cam rest t0 shapes t1 Hsel Hls.
  all: rewrite E in Hsel; try discriminate Hsel.
  all: injection Hsel as <- <- <-; cbn [w_host] in *.
  all: rewrite E0 in Hls; try discriminate Hls.
  all: injection Hls as <- <-.
  all: cbn [map ev_cmd]; rewrite map_app, reset_loop_cmds; cbn [map ev_cmd].
  all: eexists; reflexivity.
Qed.

(** X5. With a camera selected and the camera shapes listed,
    [set_renderable_camera] issues one reset of the renderable attribute
    per listed shape, in the order of the listing, and then asks for the
    shapes of the selected camera: a reset that the host refuses stops
    neither the loop nor the handler, and shows nothing. *)
Theorem set_renderable_resets_every_shape (host : Host) (w : world host)
    (cam : string) (rest : list string) (s0 : hstate host)
    (shapes : list string) (s1 : hstate host) :
  exec host TslSelectItem (w_host w) = (inr (Some (cam :: rest)), s0) ->
  exec host Ls_camera s0 = (inr shapes, s1) ->
  exists tl,
    map ev_cmd (res_trace (set_renderable_camera w)) =
    TslSelectItem :: Ls_camera :: reset_cmds shapes ++ ListRelativesShapes cam :: tl.
Proof.
  intros Hsel Hls. exact (set_renderable_camera_resets w cam rest s0 shapes s1 Hsel Hls).
Qed.

Lemma set_renderable_resets_every_shape_witness :
  exists tl,
    map ev_cmd (res_trace (set_renderable_camera (Examples.at_scene Cases.locked_studio))) =
    TslSelectItem :: Ls_camera :: reset_cmds ["perspShape"; "cam1Shape"] ++
    ListRelativesShapes "cam1" :: tl.
Proof.
  apply (set_renderable_resets_every_shape Scene.scene_host
           (Examples.at_scene Cases.locked_studio) "cam1" [] Cases.locked_studio
           ["perspShape"; "cam1Shape"] Cases.locked_studio); reflexivity.
Defined.

Lemma append_cons (c : Ascii.ascii) (a b : string) :
  String c a +:+ b = String c (a +:+ b).
Proof. reflexivity. Qed.

Lemma append_length (a b : string) :
  String.length (a +:+ b) = (String.length a + String.length b)%nat.
Proof.
  induction a as [|c a IH]; [reflexivity|].
  rewrite append_cons. cbn [String.length]. rewrite IH. reflexivity.
Qed.

Lemma append_inj_l (a b s : string) : a +:+ s = b +:+ s -> a = b.
Proof.
  revert b. induction a as [|c a IH]; intros [|d b] H.
  - reflexivity.
  - apply (f_equal String.length) in H.
    rewrite (append_length (String d b)) in H. cbn [String.length String.append] in H.
    change ("" +:+ s) with s in H. lia.
  - apply (f_equal String.length) in H.
    rewrite (append_length (String c a)) in H. cbn [String.length] in H.
    change ("" +:+ s) with s in H. lia.
  - rewrite !append_cons in H. injection H as -> H. f_equal. apply IH, H.
Qed.

Section Renderable.
Context {host : Host} (value : hstate host -> string -> option Z).
Hypothesis L : attr_laws host value.

Lemma quiet_value (c : cmd) (s : hstate host) r s' b :
  exec host c s = (r, s') -> is_mutating c = false -> value s' b = value s b.
Proof.
  intros E Hc. pose proof (value_quiet _ _ L c s b Hc) as H. rewrite E in H. exact H.
Qed.

Lemma reset_keeps_zero (cams : list string) (w : world host) (a : string) :
  value (w_host w) a = Some 0 ->
  value (w_host (res_world (for_each cams reset_renderable w))) a = Some 0.
Proof.
  revert w. induction cams as [|c cams IH]; intros w H; cbn [for_each]; [exact H|].
  rewrite run_bind, run_reset. cbn [res_out res_world res_trace].
  apply IH. cbn [w_host].
  destruct (exec host (SetAttr (c +:+ ".renderable") 0) (w_host w)) as [[x|[]] s'] eqn:E;
    cbn [snd].
  - destruct (decide (a = c +:+ ".renderable")) as [->|Hne].
    + rewrite (value_set_failed _ _ L _ _ _ _ _ E). exact H.
    + rewrite (value_set_other _ _ L _ _ _ _ _ _ E Hne). exact H.
  - destruct (decide (a = c +:+ ".renderable")) as [->|Hne].
    + exact (value_set _ _ L _ _ _ _ E).
    + rewrite (value_set_other _ _ L _ _ _ _ _ _ E Hne). exact H.
Qed.

Lemma reset_loop_values (cams : list string) (w : world host) (c : string) :
  In c cams ->
  value (w_host (res_world (for_each cams reset_renderable w))) (c +:+ ".renderable") = Some 0 \/
  exists x s, In (Ev (SetAttr (c +:+ ".renderable") 0) (inl x) s)
                (res_trace (for_each cams reset_renderable w)).
Proof.
  revert w. induction cams as [|d cams IH]; intros w Hin; [destruct Hin|].
  cbn [for_each]. rewrite run_bind, run_reset. cbn [res_out res_world res_trace].
  destruct Hin as [->|Hin].
  - destruct (exec host (SetAttr (c +:+ ".renderable") 0) (w_host w)) as [[x|[]] s'] eqn:E;
      cbn [fst snd].
    + right. exists x, s'. left. reflexivity.
    + left. apply reset_keeps_zero. cbn [w_host]. exact (value_set _ _ L _ _ _ _ E).
  - destruct (IH (mkWorld (w_globals w)
                    (snd (exec host (SetAttr (d +:+ ".renderable") 0) (w_host w)))) Hin)
      as [H|(x & s & H)].
    + left. exact H.
    + right. exists x, s. right. exact H.
Qed.

Lemma set_renderable_camera_exclusive (w : world host) :
  wp set_renderable_camera (exclusive_post value w) w.
Proof.
  unfold set_renderable_camera. repeat first [wp_step | wp_reset].
  all: unfold exclusive_post; cbn beta; intros Hclean.
  all: try (exfalso; exact (not_clean_raise _ _ Hclean)).
  all: try (exfalso; refine (not_clean_dialog _ _ _ _ _ Hclean); [in_trace | reflexivity]).
  all: clear Hclean; intros cam rest t0 shapes t1 Hsel Hls.
  all: rewrite E in Hsel; try discriminate Hsel.
  injection Hsel as <- <- <-. cbn [w_host] in *.
  rewrite E0 in Hls. injection Hls as <- <-.
  destruct a0.
  set (wl := res_world (for_each a reset_renderable
                          {| w_globals := w_globals w; w_host := s'0 |})) in *.
  set (trl := res_trace (for_each a reset_renderable
                          {| w_globals := w_globals w; w_host := s'0 |})) in *.
  exists s0, l0, s'1. split; [|split].
  - right. right. apply in_or_app. right. left. reflexivity.
  - rewrite (quiet_value _ _ _ _ _ E3 eq_refl).
    exact (value_set _ _ L _ _ _ _ E2).
  - intros c Hc Hne.
    destruct (reset_loop_values a
                {| w_globals := w_globals w; w_host := s'0 |} c Hc) as [H0|(x & t & Hx)].
    + left. rewrite (quiet_value _ _ _ _ _ E3 eq_refl).
      rewrite (value_set_other _ _ L _ _ _ _ _ (c +:+ ".renderable") E2)
        by (intros Heq; apply Hne; exact (append_inj_l _ _ _ Heq)).
      rewrite (quiet_value _ _ _ _ _ E1 eq_refl). exact H0.
    + right. exists x, t. right. right. apply in_or_app. left. exact Hx.
Qed.

End Renderable.

(** X6. On a host whose numeric attributes obey [attr_laws], after a run
    of [set_renderable_camera] on the selected camera [cam] that returns
    and shows no "Error" dialog, the first camera shape the host lists
    under [cam] has renderable 1, and every other listed camera shape has
    renderable 0 unless the host refused its reset. *)
Theorem set_renderable_exclusive (host : Host)
    (value : hstate host -> string -> option Z) (L : attr_laws host value)
    (w : world host) (cam : string) (rest : list string) (s0 : hstate host)
    (shapes : list string) (s1 : hstate host) :
  exec host TslSelectItem (w_host w) = (inr (Some (cam :: rest)), s0) ->
  exec host Ls_camera s0 = (inr shapes, s1) ->
  clean (res_out (set_renderable_camera w)) (res_trace (set_renderable_camera w)) ->
  let final := w_host (res_world (set_renderable_camera w)) in
  exists sh others s2,
    In (Ev (ListRelativesShapes cam) (inr (Some (sh :: others))) s2)
      (res_trace (set_renderable_camera w)) /\
    value final (sh +:+ ".renderable") = Some 1 /\
    forall c, In c shapes -> c <> sh ->
      value final (c +:+ ".renderable") = Some 0 \/
      exists x s, In (Ev (SetAttr (c +:+ ".renderable") 0) (inl x) s)
                    (res_trace (set_renderable_camera w)).
Proof.
  intros Hsel Hls Hclean.
  exact (set_renderable_camera_exclusive value L w Hclean cam rest s0 shapes s1 Hsel Hls).
Qed.

(** ** The locks *)

Section Locks.
Context {host : Host} (lock_of : hstate host -> string -> bool).
Hypothesis L : lock_laws host lock_of.

Lemma quiet_lock (c : cmd) (s : hstate host) r s' a :
  exec host c s = (r, s') -> is_mutating c = false -> lock_of s' a = lock_of s a.
Proof.
  intros E Hc. pose proof (lock_quiet _ _ L c s a Hc) as H. rewrite E in H. exact H.
Qed.

Lemma set_lock_keeps (a a' : string) (b : bool) (s s' : hstate host) :
  exec host (SetAttrLock a' b) s = (inr tt, s') ->
  lock_of s a = b -> lock_of s' a = b.
Proof.
  intros E H. destruct (decide (a = a')) as [->|Hne].
  - exact (lock_set _ _ L _ _ _ _ E).
  - rewrite (lock_set_other _ _ L _ _ _ _ _ a E Hne). exact H.
Qed.

Lemma toggle_lock_camera_effect (w : world host) :
  wp toggle_lock_camera (toggle_post lock_of w) w.
Proof.
  unfold toggle_lock_camera. repeat first [wp_step | wp_loop].
  all: unfold toggle_post; cbn beta; intros Hclean.
  all: try (exfalso; exact (not_clean_raise _ _ Hclean)).
  all: try (exfalso; refine (not_clean_dialog _ _ _ _ _ Hclean); [in_trace | reflexivity]).
  all: clear Hclean; intros cam rest t0 Hsel.
  all: rewrite E in Hsel; try discriminate Hsel.
  all: injection Hsel as <- <- <-; cbn [w_host] in *.
  all: intros attr Hattr.
  all: repeat match goal with u : ans (SetAttrLock _ _) |- _ => destruct u end.
  rewrite (quiet_lock _ _ _ _ _ E10 eq_refl).
  assert (Ha : a = lock_of (w_host w) (s +:+ ".translateX")).
  { rewrite (lock_get _ _ L _ _ _ _ E0). exact (quiet_lock _ _ _ _ _ E eq_refl). }
  rewrite <- Ha. clear Ha E E0 E10.
  unfold transform_attrs in Hattr. cbn [flat_map map app In] in Hattr.
  repeat (destruct Hattr as [<-|Hattr];
          [repeat first [ solve [eapply (lock_set _ _ L); eassumption]
                        | eapply set_lock_keeps; [eassumption|] ]|]).
  destruct Hattr.
Qed.

End Locks.

(** X7. On a host whose locks obey [lock_laws], after a run of
    [toggle_lock_camera] on the selected camera that returns and shows no
    "Error" dialog, each of the nine transform attributes of that camera
    carries the negation of the lock translateX had before the run. *)
Theorem toggle_lock_sets_all_nine (host : Host)
    (lock_of : hstate host -> string -> bool) (L : lock_laws host lock_of)
    (w : world host) (cam : string) (rest : list string) (s0 : hstate host) :
  exec host TslSelectItem (w_host w) = (inr (Some (cam :: rest)), s0) ->
  clean (res_out (toggle_lock_camera w)) (res_trace (toggle_lock_camera w)) ->
  forall a, In a transform_attrs ->
    lock_of (w_host (res_world (toggle_lock_camera w))) (cam +:+ "." +:+ a) =
    negb (lock_of (w_host w) (cam +:+ ".translateX")).
Proof.
  intros Hsel Hclean. exact (toggle_lock_camera_effect lock_of L w Hclean cam rest s0 Hsel).
Qed.

(** X8. Two such runs in a row on the same selected camera leave each of
    the nine transform attributes with the lock translateX had before the
    first run: translateX gets its lock back, the other eight get their
    own back only if it agreed with that of translateX. *)
Theorem toggle_lock_twice (host : Host)
    (lock_of : hstate host -> string -> bool) (L : lock_laws host lock_of)
    (w : world host) (cam : string) (rest rest' : list string) (s0 s0' : hstate host) :
  let w1 := res_world (toggle_lock_camera w) in
  exec host TslSelectItem (w_host w) = (inr (Some (cam :: rest)), s0) ->
  exec host TslSelectItem (w_host w1) = (inr (Some (cam :: rest')), s0') ->
  clean (res_out (toggle_lock_camera w)) (res_trace (toggle_lock_camera w)) ->
  clean (res_out (toggle_lock_camera w1)) (res_trace (toggle_lock_camera w1)) ->
  forall a, In a transform_attrs ->
    lock_of (w_host (res_world (toggle_lock_camera w1))) (cam +:+ "." +:+ a) =
    lock_of (w_host w) (cam +:+ ".translateX").
Proof.
  intros w1 Hsel Hsel1 Hclean Hclean1 a Ha.
  assert (Hx : In "translateX" transform_attrs).
  { unfold transform_attrs. cbn [flat_map map app In]. left. reflexivity. }
  pose proof (toggle_lock_camera_effect lock_of L w Hclean cam rest s0 Hsel _ Hx) as H1.
  change (cam +:+ "." +:+ "translateX") with (cam +:+ ".translateX") in H1.
  rewrite (toggle_lock_camera_effect lock_of L w1 Hclean1 cam rest' s0' Hsel1 a Ha).
  subst w1. rewrite H1. apply negb_involutive.
Qed.

(** *** The scene host obeys the laws *)

Lemma scene_attr_laws :
  attr_laws Scene.scene_host (fun s a => Scene.sc_attr s !! a).
Proof.
  split.
  - intros a v s s'. cbn [exec Scene.scene_host Scene.step].
    destruct (Scene.locked s a); intros [= <-]. cbn [Scene.set_attr Scene.sc_attr].
    apply lookup_insert_eq.
  - intros a v s r s' b. cbn [exec Scene.scene_host Scene.step].
    destruct (Scene.locked s a); intros [= <- <-] Hne; [reflexivity|].
    cbn [Scene.set_attr Scene.sc_attr]. apply lookup_insert_ne. congruence.
  - intros a v s x s'. cbn [exec Scene.scene_host Scene.step].
    destruct (Scene.locked s a); intros [= <- <-]. reflexivity.
  - intros c s b Hc. destruct c; try discriminate Hc;
      cbn [exec Scene.scene_host Scene.step]; unfold Scene.press;
      repeat case_match; simplify_eq; reflexivity.
Qed.

Lemma scene_lock_laws : lock_laws Scene.scene_host Scene.locked.
Proof.
  split.
  - intros a s b s'. cbn [exec Scene.scene_host Scene.step]. intros [= <- <-]. reflexivity.
  - intros a b s s'. cbn [exec Scene.scene_host Scene.step]. intros [= <-].
    unfold Scene.locked. cbn [Scene.set_lock Scene.sc_lock].
    rewrite lookup_insert_eq. reflexivity.
  - intros a b s r s' a'. cbn [exec Scene.scene_host Scene.step]. intros [= <- <-] Hne.
    unfold Scene.locked. cbn [Scene.set_lock Scene.sc_lock].
    rewrite lookup_insert_ne by congruence. reflexivity.
  - intros c s a Hc. destruct c; try discriminate Hc;
      cbn [exec Scene.scene_host Scene.step]; unfold Scene.press;
      repeat case_match; simplify_eq; reflexivity.
Qed.

Lemma set_renderable_exclusive_witness :
  exists sh others s2,
    In (Ev (ListRelativesShapes "cam1") (inr (Some (sh :: others))) s2)
      (res_trace (set_renderable_camera (Examples.at_scene Examples.studio))) /\
    Scene.sc_attr (w_host (res_world (set_renderable_camera (Examples.at_scene Examples.studio))))
      !! (sh +:+ ".renderable") = Some 1 /\
    forall c, In c ["perspShape"; "cam1Shape"] -> c <> sh ->
      Scene.sc_attr (w_host (res_world (set_renderable_camera (Examples.at_scene Examples.studio))))
        !! (c +:+ ".renderable") = Some 0 \/
      exists x s, In (Ev (SetAttr (c +:+ ".renderable") 0) (inl x) s)
                    (res_trace (set_renderable_camera (Examples.at_scene Examples.studio))).
Proof.
  apply (set_renderable_exclusive Scene.scene_host (fun s a => Scene.sc_attr s !! a)
           scene_attr_laws (Examples.at_scene Examples.studio) "cam1" []
           Examples.studio ["perspShape"; "cam1Shape"] Examples.studio).
  - reflexivity.
  - reflexivity.
  - apply cleanb_clean. vm_compute. reflexivity.
Defined.

Lemma toggle_lock_sets_all_nine_witness :
  Scene.locked (w_host (res_world (toggle_lock_camera (Examples.at_scene Examples.studio))))
    ("cam1" +:+ "." +:+ "translateY") =
  negb (Scene.locked Examples.studio "cam1.translateX").
Proof.
  apply (toggle_lock_sets_all_nine Scene.scene_host Scene.locked scene_lock_laws
           (Examples.at_scene Examples.studio) "cam1" [] Examples.studio).
  - reflexivity.
  - apply cleanb_clean. vm_compute. reflexivity.
  - unfold transform_attrs. cbn [flat_map map app In]. right. left. reflexivity.
Defined.

Lemma toggle_lock_twice_witness :
  Scene.locked
    (w_host (res_world (toggle_lock_camera
       (res_world (toggle_lock_camera (Examples.at_scene Examples.studio))))))
    ("cam1" +:+ "." +:+ "translateY") =
  Scene.locked Examples.studio "cam1.translateX".
Proof.
  apply (toggle_lock_twice Scene.scene_host Scene.locked scene_lock_laws
           (Examples.at_scene Examples.studio) "cam1" [] []
           Examples.studio
           (w_host (res_world (toggle_lock_camera (Examples.at_scene Examples.studio))))).
  - reflexivity.
  - reflexivity.
  - apply cleanb_clean. vm_compute. reflexivity.
  - apply cleanb_clean. vm_compute. reflexivity.
  - unfold transform_attrs. cbn [flat_map map app In]. right. left. reflexivity.
Defined.

(** ** Dialogs the user turns down *)

Section Declined.
Context {host : Host}.
Implicit Types (w : world host) (e : event host) (tr pre post : list (event host))
  (o : exn + unit) (s : hstate host).

Lemma declined_confirm m b d c i (a : string) s :
  declined (Ev (ConfirmDialog "Delete Camera?" m b d c i) (inr a) s) =
  negb (String.eqb a "Yes").
Proof. reflexivity. Qed.

Lemma declined_prompt t m b d c i (a : string) s :
  declined (Ev (PromptDialog t m b d c i) (inr a) s) = negb (String.eqb a "OK").
Proof. reflexivity. Qed.

Lemma sod_last e : declined e = true -> stops_on_decline (inr tt) [e].
Proof. intros H. cbn [stops_on_decline]. rewrite H. auto. Qed.

Lemma sod_cons_quiet o e tr :
  declined e = false -> is_mutating (ev_cmd e) = false ->
  stops_on_decline o tr -> stops_on_decline o (e :: tr).
Proof. intros Hd Hm H. cbn [stops_on_decline]. rewrite Hd, Hm. exact H. Qed.

Lemma sod_cons_mutating o e tr :
  declined e = false -> is_mutating (ev_cmd e) = true ->
  Forall (fun e' => declined e' = false) tr -> stops_on_decline o (e :: tr).
Proof. intros Hd Hm H. cbn [stops_on_decline]. rewrite Hd, Hm. exact H. Qed.

Lemma sod_none o tr :
  Forall (fun e => declined e = false) tr -> stops_on_decline o tr.
Proof.
  induction 1 as [|e tl He Htl IH]; [exact I|].
  cbn [stops_on_decline]. rewrite He. destruct (is_mutating (ev_cmd e)); assumption.
Qed.

Lemma not_declined_list_cmd e : is_list_cmd (ev_cmd e) = true -> declined e = false.
Proof. destruct e as [c r s]. destruct c; try discriminate; reflexivity. Qed.

Lemma list_cameras_not_declined w :
  Forall (fun e => declined e = false) (res_trace (list_cameras w)).
Proof.
  eapply Forall_impl; [apply list_cameras_cmds|]. intros e. apply not_declined_list_cmd.
Qed.

Lemma reset_loop_not_declined (cams : list string) w :
  Forall (fun e => declined e = false) (res_trace (for_each cams reset_renderable w)).
Proof.
  revert w. induction cams as [|c cams IH]; intros w; cbn [for_each]; [constructor|].
  rewrite run_bind, run_reset. cbn [res_out res_world res_trace app].
  constructor; [reflexivity | apply IH].
Qed.

Lemma sod_spec o tr pre e post :
  stops_on_decline o tr -> tr = pre ++ e :: post -> declined e = true ->
  post = [] /\ o = inr tt /\ mutating_cmds pre = [].
Proof.
  intros H -> Hd. induction pre as [|e0 pre IH].
  - cbn [app stops_on_decline] in H. rewrite Hd in H. destruct H. auto.
  - cbn [app stops_on_decline] in H. destruct (declined e0).
    { destruct H as [Heq _]. destruct pre; discriminate Heq. }
    rewrite mc_cons. destruct (is_mutating (ev_cmd e0)).
    + exfalso. rewrite Forall_app in H. destruct H as [_ H].
      inversion H; subst. congruence.
    + exact (IH H).
Qed.

End Declined.

Ltac not_declined :=
  first
    [ reflexivity
    | rewrite declined_confirm;
      match goal with B : String.eqb _ "Yes" = true |- _ => rewrite B end; reflexivity
    | rewrite declined_prompt;
      match goal with B : String.eqb _ "OK" = true |- _ => rewrite B end; reflexivity ].

Ltac is_declined :=
  first
    [ reflexivity
    | rewrite declined_confirm;
      match goal with B : String.eqb _ "Yes" = false |- _ => rewrite B end; reflexivity
    | rewrite declined_prompt;
      match goal with B : String.eqb _ "OK" = false |- _ => rewrite B end; reflexivity ].

Ltac nd_all :=
  lazymatch goal with
  | |- Forall _ [] => constructor
  | |- Forall _ (res_trace (list_cameras _) ++ _) =>
      apply Forall_app; split; [apply list_cameras_not_declined | nd_all]
  | |- Forall _ (res_trace (list_cameras _)) => apply list_cameras_not_declined
  | |- Forall _ (res_trace (for_each _ reset_renderable _) ++ _) =>
      apply Forall_app; split; [apply reset_loop_not_declined | nd_all]
  | |- Forall _ (_ :: _) => constructor; [not_declined | nd_all]
  end.

Ltac sod :=
  lazymatch goal with
  | |- stops_on_decline _ [] => exact I
  | |- stops_on_decline _ (res_trace (for_each _ reset_renderable _) ++ _) =>
      apply sod_none; nd_all
  | |- stops_on_decline _ (_ :: _) =>
      first [ apply sod_last; is_declined
            | apply sod_cons_quiet; [not_declined | reflexivity | sod]
            | apply sod_cons_mutating; [not_declined | reflexivity | nd_all] ]
  end.

Ltac sod_leaf := rewrite <- ?app_assoc; cbn [app]; sod.

Lemma handler_stops_on_decline {host : Host} (h : handler_id) (w : world host) :
  wp (handler_of h) (fun o _ tr => stops_on_decline o tr) w.
Proof.
  destruct h; cbn [handler_of]; unfold_handlers.
  - repeat wp_step; sod_leaf.
  - repeat wp_step; sod_leaf.
  - repeat wp_step; sod_leaf.
  - repeat first [wp_step | wp_loop]; sod_leaf.
  - repeat wp_step; sod_leaf.
  - repeat wp_step; sod_leaf.
  - repeat first [wp_step | wp_reset]; sod_leaf.
  - repeat wp_step; sod_leaf.
  - repeat wp_step; sod_leaf.
Qed.

(** X9. When the user turns a dialog down (answers the delete
    confirmation with anything but "Yes", the rename prompt with anything
    but "OK", or leaves the export or import file dialog without a path),
    the handler issues no further command and returns, and it has issued
    no mutating command before. *)
Theorem declined_dialog_stops_handler (host : Host) (h : handler_id) (w : world host)
    (pre : list (event host)) (e : event host) (post : list (event host)) :
  res_trace (handler_of h w) = pre ++ e :: post ->
  declined e = true ->
  post = [] /\ res_out (handler_of h w) = inr tt /\ mutating_cmds pre = [].
Proof.
  intros Htr Hd. exact (sod_spec _ _ pre e post (handler_stops_on_decline h w) Htr Hd).
Qed.

Lemma declined_dialog_stops_handler_witness :
  res_out (handler_of H_rename_camera Stale.at_stale) = inr tt.
Proof.
  apply (declined_dialog_stops_handler Stale.stale_host H_rename_camera Stale.at_stale
           (take 1 (res_trace (handler_of H_rename_camera Stale.at_stale)))
           (@Ev Stale.stale_host rename_prompt (inr "Cancel") tt) []); reflexivity.
Defined.

(** X10. [rename_camera] checks the new name first: when an object of
    that name exists it issues no [rename] and does not refresh the list;
    after the existence query its only command is the "Error" dialog that
    says the name is taken, and it returns (or raises what that dialog
    raises). *)
Theorem rename_refuses_existing_name (host : Host) (w : world host)
    (sel : option (list string)) (new_name : string) (s1 s2 s3 s4 : hstate host) :
  exec host TslSelectItem (w_host w) = (inr sel, s1) ->
  truthy sel = true ->
  exec host rename_prompt s1 = (inr "OK", s2) ->
  exec host PromptDialogText s2 = (inr new_name, s3) ->
  exec host (ObjExists new_name) s3 = (inr true, s4) ->
  let r := exec host (name_taken_dialog new_name) s4 in
  res_trace (rename_camera w) =
    [Ev TslSelectItem (inr sel) s1; Ev rename_prompt (inr "OK") s2;
     Ev PromptDialogText (inr new_name) s3; Ev (ObjExists new_name) (inr true) s4;
     Ev (name_taken_dialog new_name) (fst r) (snd r)] /\
  res_out (rename_camera w) = after_dialog (fst r).
Proof.
  intros Hsel Ht Hp Hn He r. subst r.
  unfold rename_camera.
  rewrite run_bind, run_call, Hsel. cbn [fst snd res_out res_world res_trace w_host w_globals].
  rewrite Ht.
  rewrite run_bind, run_call. cbn [w_host w_globals].
  change (PromptDialog "Rename Camera" "Enter new camera name:" ["OK"; "Cancel"]
            "OK" "Cancel" "Cancel") with rename_prompt.
  rewrite Hp. cbn [fst snd res_out res_world res_trace w_host w_globals].
  change (String.eqb "OK" "OK") with true. cbv iota.
  rewrite run_bind, run_call. cbn [w_host w_globals]. rewrite Hn.
  cbn [fst snd res_out res_world res_trace w_host w_globals].
  rewrite run_bind, run_call. cbn [w_host w_globals]. rewrite He.
  cbn [fst snd res_out res_world res_trace w_host w_globals].
  rewrite run_bind, run_call. cbn [w_host w_globals].
  change (ConfirmDialog "Error" ("A camera named '" +:+ new_name +:+ "' already exists.")
            ["OK"] None None "critical") with (name_taken_dialog new_name).
  destruct (exec host (name_taken_dialog new_name) s4) as [[x|a] s5];
    cbn [fst snd res_out res_world res_trace app]; split; reflexivity.
Qed.

Lemma rename_refuses_existing_name_witness :
  res_out (rename_camera (Examples.at_scene Cases.renaming_studio)) = inr tt.
Proof.
  apply (rename_refuses_existing_name Scene.scene_host
           (Examples.at_scene Cases.renaming_studio) (Some ["cam1"]) "persp"
           Cases.renaming_studio (Scene.set_buttons Cases.renaming_studio ["OK"])
           (Scene.set_buttons Cases.renaming_studio ["OK"])
           (Scene.set_buttons Cases.renaming_studio ["OK"])); reflexivity.
Defined.

(** ** Functions that leave the scene alone *)

Lemma non_mutating_function {host : Host} (f : function_id) :
  scene_free f = true ->
  emits_only (fun c => negb (is_mutating c)) (@function_of host f).
Proof.
  destruct f as [|h| | |]; [| destruct h; try discriminate | | |]; intros _;
    cbn [function_of handler_of];
    unfold show_camera_info, cam_manager_ui, add_shelf_button, add_camera_popup_menu,
      list_cameras;
    repeat eo_step.
Qed.

(** X11. [list_cameras], [show_camera_info], [add_camera_popup_menu],
    [cam_manager_ui] and [add_shelf_button] never issue a mutating host
    command, on any host and whether they return or raise. *)
Theorem scene_free_functions_never_mutate (host : Host) (f : function_id) (w : world host) :
  scene_free f = true ->
  Forall non_mutating (res_trace (function_of f w)).
Proof.
  intros Hf. eapply Forall_impl; [exact (non_mutating_function f Hf w)|].
  intros e. unfold non_mutating. cbn beta.
  destruct (is_mutating (ev_cmd e)); [discriminate | reflexivity].
Qed.

Lemma scene_free_functions_never_mutate_witness :
  Forall non_mutating
    (res_trace (function_of F_cam_manager_ui (Examples.at_scene Examples.studio))).
Proof.
  apply (scene_free_functions_never_mutate Scene.scene_host F_cam_manager_ui
           (Examples.at_scene Examples.studio)).
  reflexivity.
Defined.

(** ** Shelf button and popup menu *)

(** X12. [add_shelf_button] adds its button only when the shelf "Custom"
    exists: if the query answers no, it issues nothing else and returns;
    if it answers yes, the next command adds the button, with the image
    "main_camera_image.jpg" under [IMG_PATH], and the line is printed only
    after the button was added. *)
Theorem add_shelf_button_needs_shelf (host : Host) (w : world host)
    (b : bool) (s : hstate host) :
  exec host (ShelfLayoutExists "Custom") (w_host w) = (inr b, s) ->
  if b then
    exists r s' tl,
      res_trace (add_shelf_button w) =
        Ev (ShelfLayoutExists "Custom") (inr true) s ::
        Ev (shelf_button (w_globals w)) r s' :: tl /\
      (tl = [] \/ exists r' s'', r = inr tt /\
         tl = [Ev (Print "Camera Manager button added to shelf: Custom") r' s''])
  else
    res_trace (add_shelf_button w) = [Ev (ShelfLayoutExists "Custom") (inr false) s] /\
    res_out (add_shelf_button w) = inr tt.
Proof.
  intros He. unfold add_shelf_button. cbv zeta.
  rewrite run_bind, run_call, He. cbn [fst snd res_out res_world res_trace w_host w_globals].
  destruct b; [|split; reflexivity].
  rewrite run_bind. cbn [read_global res_out res_world res_trace w_globals app].
  rewrite run_bind, run_call. cbn [w_host w_globals].
  change (ShelfButton "Custom" "Camera Manager" "CamMgr"
            (os_path_join (IMG_PATH (w_globals w)) "main_camera_image.jpg")
            "import camera_manager; camera_manager.cam_manager_ui()")
    with (shelf_button (w_globals w)).
  destruct (exec host (shelf_button (w_globals w)) s) as [[x|[]] s'];
    cbn [fst snd res_out res_world res_trace app].
  - exists (inl x), s', []. split; [reflexivity | left; reflexivity].
  - rewrite run_call. cbn [w_host res_trace app].
    eexists (inr tt), s', _. split; [reflexivity|]. right.
    eexists _, _. split; reflexivity.
Qed.

Lemma add_shelf_button_needs_shelf_witness :
  res_trace (add_shelf_button (Examples.at_scene Examples.studio)) =
    [@Ev Scene.scene_host (ShelfLayoutExists "Custom") (inr false) Examples.studio] /\
  res_out (add_shelf_button (Examples.at_scene Examples.studio)) = inr tt.
Proof.
  apply (add_shelf_button_needs_shelf Scene.scene_host (Examples.at_scene Examples.studio)
           false Examples.studio). reflexivity.
Defined.

Lemma add_camera_popup_menu_commands {host : Host} (n : string) (w : world host) :
  wp (add_camera_popup_menu n) (fun o _ tr =>
    forall b s,
      exec host (PopupMenuExists "camListMenu") (w_host w) = (inr b, s) ->
      o = inr tt ->
      map ev_cmd tr =
      PopupMenuExists "camListMenu" ::
      (if b then [DeleteUI "camListMenu"] else []) ++
      PopupMenu "camListMenu" n 3 :: popup_items) w.
Proof.
  unfold add_camera_popup_menu. repeat wp_step.
  all: intros b t He Ho; try discriminate Ho.
  all: rewrite E in He; try discriminate He.
  all: injection He as <- <-; reflexivity.
Qed.

(** X13. A run of [add_camera_popup_menu] that returns has deleted the
    menu "camListMenu" first if, and only if, the host said it existed,
    and has then created it on button 3 of the scroll list it was given,
    with the three items for set-renderable, duplicate and camera info. *)
Theorem popup_menu_rebuilt (host : Host) (n : string) (w : world host)
    (b : bool) (s : hstate host) :
  exec host (PopupMenuExists "camListMenu") (w_host w) = (inr b, s) ->
  res_out (add_camera_popup_menu n w) = inr tt ->
  map ev_cmd (res_trace (add_camera_popup_menu n w)) =
    PopupMenuExists "camListMenu" ::
    (if b then [DeleteUI "camListMenu"] else []) ++
    PopupMenu "camListMenu" n 3 :: popup_items.
Proof.
  intros He Ho. exact (add_camera_popup_menu_commands n w b s He Ho).
Qed.

Lemma popup_menu_rebuilt_witness :
  map ev_cmd
    (res_trace (add_camera_popup_menu "cameraList" (Examples.at_scene Examples.studio))) =
    PopupMenuExists "camListMenu" :: [] ++
    PopupMenu "camListMenu" "cameraList" 3 :: popup_items.
Proof.
  apply (popup_menu_rebuilt Scene.scene_host "cameraList" (Examples.at_scene Examples.studio)
           false Examples.studio); reflexivity.
Defined.

(** ** Appending to the list *)

Section Appends.
Context {host : Host}.

Lemma comprehension_cmds (cams : list string) :
  emits_only (fun c => match c with ListRelativesParent _ => true | _ => false end)
    (@comprehension host _ _ cams
       (fun c => ps <- call (ListRelativesParent c) ;; subscript0 ps)).
Proof. repeat eo_step. Qed.

Lemma for_each_append_in (ps : list string) (w : world host) p r s :
  In (Ev (TslAppend p) r s) (res_trace (for_each ps (fun cam => call (TslAppend cam)) w)) ->
  In p ps.
Proof.
  revert w. induction ps as [|q ps IH]; intros w; cbn [for_each]; [intros []|].
  rewrite run_bind, run_call. cbn [res_out res_world res_trace w_host w_globals].
  destruct (fst (exec host (TslAppend q) (w_host w))) as [x|[]];
    cbn [res_trace app In].
  - intros [H|[]]. left. apply (f_equal ev_cmd) in H. cbn [ev_cmd] in H. congruence.
  - intros [H|H].
    + left. apply (f_equal ev_cmd) in H. cbn [ev_cmd] in H. congruence.
    + right. exact (IH _ H).
Qed.

End Appends.

(** X14. [list_cameras] appends nothing before every parent query has
    given a first parent: if a run, even one that raises, has issued an
    append, then the listing and the clearing succeeded, all the parent
    queries were answered, and the appended entry is one of the first
    parents.  A shape without a parent thus leaves the list cleared and
    empty. *)
Theorem list_cameras_appends_after_parents (host : Host) (w : world host)
    (p : string) (r : exn + unit) (s : hstate host) :
  In (Ev (TslAppend p) r s) (res_trace (list_cameras w)) ->
  exists cams s1 s2 tr_q ps tr_a,
    res_trace (list_cameras w) =
      Ev Ls_camera (inr cams) s1 :: Ev TslRemoveAll (inr tt) s2 :: tr_q ++ tr_a /\
    resolved cams tr_q ps /\ In p ps.
Proof.
  unfold list_cameras. rewrite run_bind, run_call.
  destruct (exec host Ls_camera (w_host w)) as [[x|cams] s1];
    cbn [fst snd res_out res_world res_trace w_host w_globals app].
  { intros [H|[]]. apply (f_equal ev_cmd) in H. discriminate H. }
  rewrite run_bind, run_call; cbn [w_host w_globals].
  destruct (exec host TslRemoveAll s1) as [[x|[]] s2];
    cbn [fst snd res_out res_world res_trace w_host w_globals app].
  { intros [H|[H|[]]]; apply (f_equal ev_cmd) in H; discriminate H. }
  rewrite run_bind.
  pose proof (comprehension_resolved cams (mkWorld (w_globals w) s2)) as Hq.
  pose proof (comprehension_cmds cams (mkWorld (w_globals w) s2)) as Hc.
  destruct (res_out (comprehension cams _ _)) as [x|ps];
    cbn [res_out res_world res_trace app].
  - intros [H|[H|H]]; try (apply (f_equal ev_cmd) in H; discriminate H).
    exfalso. rewrite Forall_forall in Hc.
    apply list_elem_of_In, Hc in H. discriminate H.
  - intros [H|[H|H]]; try (apply (f_equal ev_cmd) in H; discriminate H).
    apply in_app_or in H. destruct H as [H|H].
    { exfalso. rewrite Forall_forall in Hc.
      apply list_elem_of_In, Hc in H. discriminate H. }
    exists cams, s1, s2. eexists. exists ps. eexists.
    split; [reflexivity|]. split; [apply Hq; reflexivity|].
    exact (for_each_append_in ps _ p r s H).
Qed.

Lemma list_cameras_appends_after_parents_witness :
  exists cams s1 s2 tr_q ps tr_a,
    res_trace (list_cameras (Examples.at_scene Examples.studio)) =
      Ev Ls_camera (inr cams) s1 :: Ev TslRemoveAll (inr tt) s2 :: tr_q ++ tr_a /\
    resolved cams tr_q ps /\ In "persp" ps.
Proof.
  apply (list_cameras_appends_after_parents Scene.scene_host
           (Examples.at_scene Examples.studio)
           "persp" (inr tt) (Scene.set_items Examples.studio ["persp"] [])).
  right. right. right. right. left. reflexivity.
Defined.

(** ** Opening the window again *)

Lemma cam_manager_ui_window {host : Host} (w : world host) :
  wp cam_manager_ui (fun o _ tr =>
    o = inr tt ->
    forall b s,
      exec host (WindowExists "cam_manager") (w_host w) = (inr b, s) ->
      exists d2 (w' : world host),
        (d2 = [] \/ d2 = [DeleteUI "camListMenu"]) /\
        map ev_cmd tr =
          WindowExists "cam_manager" ::
          (if b then [DeleteUI "cam_manager"] else []) ++
          ui_header (w_globals w) ++ d2 ++ ui_menu ++ ui_buttons ++
          map ev_cmd (res_trace (list_cameras w'))) w.
Proof.
  unfold cam_manager_ui, add_camera_popup_menu. cbv zeta.
  repeat (wp_step; try discriminate).
  all: intros _ b t He; rewrite E in He; injection He as <- <-.
  all: first
    [ exists []; eexists; (split; [left; reflexivity | reflexivity])
    | exists [DeleteUI "camListMenu"]; eexists; (split; [right; reflexivity | reflexivity]) ].
Qed.

(** X15. A run of [cam_manager_ui] that returns has deleted the window
    "cam_manager" right after the existence query exactly when the host
    said it existed, and has then built the window anew: header with the
    image "main_camera_image.jpeg" under [IMG_PATH], scroll list, popup
    menu, buttons, and the filling of the list last. *)
Theorem window_rebuilt (host : Host) (w : world host) (b : bool) (s : hstate host) :
  exec host (WindowExists "cam_manager") (w_host w) = (inr b, s) ->
  res_out (cam_manager_ui w) = inr tt ->
  exists d2 (w' : world host),
    (d2 = [] \/ d2 = [DeleteUI "camListMenu"]) /\
    map ev_cmd (res_trace (cam_manager_ui w)) =
      WindowExists "cam_manager" ::
      (if b then [DeleteUI "cam_manager"] else []) ++
      ui_header (w_globals w) ++ d2 ++ ui_menu ++ ui_buttons ++
      map ev_cmd (res_trace (list_cameras w')).
Proof.
  intros He Ho. exact (cam_manager_ui_window w Ho b s He).
Qed.

Lemma window_rebuilt_witness :
  exists d2 (w' : world Scene.scene_host),
    (d2 = [] \/ d2 = [DeleteUI "camListMenu"]) /\
    map ev_cmd (res_trace (cam_manager_ui (Examples.at_scene Examples.studio))) =
      WindowExists "cam_manager" :: [] ++
      ui_header (w_globals (Examples.at_scene Examples.studio)) ++ d2 ++ ui_menu ++
      ui_buttons ++ map ev_cmd (res_trace (list_cameras w')).
Proof.
  apply (window_rebuilt Scene.scene_host (Examples.at_scene Examples.studio)
           false Examples.studio).
  - reflexivity.
  - vm_compute. reflexivity.
Defined.

(** ** Runs decided by the host *)

Section HostDetermined.
Context {host : Host}.









End HostDetermined.





(** ** When the list is refreshed *)

Section Refreshed.
Context {host : Host}.
Implicit Types (w : world host) (e : event host) (tr pre post : list (event host))
  (s : hstate host).

Lemma refreshed_skip h g e tr :
  (refresh_trigger h (ev_cmd e) && ev_ok e)%bool = false ->
  refreshed h g tr -> refreshed h g (e :: tr).
Proof. intros He H. cbn [refreshed]. rewrite He. auto. Qed.

Lemma refreshed_hit h g e tr :
  (exists post', tr = res_trace (list_cameras (mkWorld g (ev_post e))) ++ post') ->
  refreshed h g tr -> refreshed h g (e :: tr).
Proof.
  intros He H. cbn [refreshed]. split; [|exact H].
  destruct (refresh_trigger h (ev_cmd e) && ev_ok e)%bool; [exact He | exact I].
Qed.

Lemma refreshed_app h g tr1 tr2 :
  Forall (fun e => refresh_trigger h (ev_cmd e) = false) tr1 ->
  refreshed h g tr2 -> refreshed h g (tr1 ++ tr2).
Proof.
  intros H1 H2. induction H1 as [|e tl He _ IH]; [exact H2|].
  cbn [app]. apply refreshed_skip; [rewrite He; reflexivity | exact IH].
Qed.

Lemma refreshed_untriggered h g tr :
  Forall (fun e => refresh_trigger h (ev_cmd e) = false) tr -> refreshed h g tr.
Proof.
  intros H. rewrite <- (app_nil_r tr). apply refreshed_app; [exact H | exact I].
Qed.

Lemma list_cameras_untriggered h w :
  Forall (fun e => refresh_trigger h (ev_cmd e) = false) (res_trace (list_cameras w)).
Proof.
  eapply Forall_impl; [apply list_cameras_cmds|]. intros e. cbn beta.
  destruct h; destruct (ev_cmd e); cbn; intros; try discriminate; reflexivity.
Qed.

Lemma refreshed_spec h g tr pre c (a : ans c) s post :
  refreshed h g tr ->
  tr = pre ++ Ev c (inr a) s :: post ->
  refresh_trigger h c = true ->
  exists post', post = res_trace (list_cameras (mkWorld g s)) ++ post'.
Proof.
  intros H -> Hc. induction pre as [|e pre IH].
  - cbn [app refreshed ev_cmd ev_ok ev_exn ev_post] in H. rewrite Hc in H.
    exact (proj1 H).
  - cbn [app refreshed] in H. exact (IH (proj2 H)).
Qed.

Lemma edits_follow_seen h tr : edits_follow h true tr.
Proof. induction tr as [|e tl IH]; cbn [edits_follow orb]; auto. Qed.

Lemma edits_follow_step h seen e tr :
  is_list_edit (ev_cmd e) = false ->
  edits_follow h (seen || (refresh_trigger h (ev_cmd e) && ev_ok e))%bool tr ->
  edits_follow h seen (e :: tr).
Proof. intros He H. cbn [edits_follow]. split; [congruence | exact H]. Qed.

Lemma edits_follow_spec h tr :
  edits_follow h false tr ->
  (forall e, In e tr -> refresh_trigger h (ev_cmd e) = true -> ev_ok e = false) ->
  Forall (fun e => is_list_edit (ev_cmd e) = false) tr.
Proof.
  induction tr as [|e tl IH]; intros H Hno; [constructor|].
  cbn [edits_follow orb] in H. destruct H as [He H].
  assert (Hq : (refresh_trigger h (ev_cmd e) && ev_ok e)%bool = false).
  { destruct (refresh_trigger h (ev_cmd e)) eqn:Ht; [|reflexivity].
    rewrite (Hno e (or_introl eq_refl) Ht). reflexivity. }
  rewrite Hq in H. constructor.
  - destruct (is_list_edit (ev_cmd e)); [discriminate (He eq_refl) | reflexivity].
  - apply IH; [exact H|]. intros e' Hin. apply Hno. right. exact Hin.
Qed.

End Refreshed.

Ltac rf :=
  lazymatch goal with
  | |- refreshed _ _ [] => exact I
  | |- refreshed _ _ (res_trace (list_cameras _) ++ _) =>
      apply refreshed_app; [apply list_cameras_untriggered | rf]
  | |- refreshed _ _ (res_trace (list_cameras _)) =>
      apply refreshed_untriggered, list_cameras_untriggered
  | |- refreshed _ _ (_ :: _) =>
      first [ apply refreshed_skip; [reflexivity | rf]
            | apply refreshed_hit;
              [ cbn [ev_post];
                first [exists []; rewrite app_nil_r; reflexivity | eexists; reflexivity]
              | rf ] ]
  end.

Ltac ef :=
  lazymatch goal with
  | |- edits_follow _ _ [] => exact I
  | |- edits_follow _ _ _ =>
      first [ apply edits_follow_seen
            | apply edits_follow_step; [reflexivity | ef] ]
  end.

Lemma handler_refreshes {host : Host} (h : handler_id) (w : world host) :
  refreshing h = true ->
  wp (handler_of h) (fun _ _ tr =>
    refreshed h (w_globals w) tr /\ edits_follow h false tr) w.
Proof.
  destruct h; try discriminate; intros _; cbn [handler_of]; unfold_handlers.
  - repeat wp_step; (rewrite <- ?app_assoc; cbn [app]; split; [rf | ef]).
  - repeat wp_step; (rewrite <- ?app_assoc; cbn [app]; split; [rf | ef]).
  - repeat wp_step; (rewrite <- ?app_assoc; cbn [app]; split; [rf | ef]).
  - repeat wp_step; (rewrite <- ?app_assoc; cbn [app]; split; [rf | ef]).
  - repeat wp_step; (rewrite <- ?app_assoc; cbn [app]; split; [rf | ef]).
Qed.

Lemma never_triggered (h : handler_id) (c : cmd) :
  refreshing h = false -> refresh_trigger h c = false.
Proof. destruct h; try discriminate; intros _; destruct c; reflexivity. Qed.

(** C1 (amended).  [create_camera], [delete_camera], [rename_camera],
    [import_cameras] and [duplicate_camera] run [list_cameras] at once
    after their last mutating host command has returned ([camera],
    [delete], [rename], the file import; for [duplicate_camera] the
    [rename] that follows [duplicate]), from the host state that command
    left, whatever becomes of the rest of the run.  They edit the scroll
    list in no other case: a run in which that command did not return has
    not edited the list, so a [duplicate_camera] whose [duplicate] succeeds
    and whose [rename] fails leaves the list as it was.  The other
    handlers ([toggle_lock_camera], [export_cameras],
    [set_renderable_camera], [show_camera_info]) never edit the list. *)
Theorem refresh_after_mutation (host : Host) (h : handler_id) (w : world host) :
  (forall pre c (a : ans c) s post,
     res_trace (handler_of h w) = pre ++ Ev c (inr a) s :: post ->
     refresh_trigger h c = true ->
     exists post', post = res_trace (list_cameras (mkWorld (w_globals w) s)) ++ post') /\
  ((forall e, In e (res_trace (handler_of h w)) ->
              refresh_trigger h (ev_cmd e) = true -> ev_ok e = false) ->
   Forall (fun e => is_list_edit (ev_cmd e) = false) (res_trace (handler_of h w))) /\
  (refreshing h = false ->
   Forall (fun e => is_list_edit (ev_cmd e) = false) (res_trace (handler_of h w))).
Proof.
  assert (Hn : refreshing h = false ->
               Forall (fun e => is_list_edit (ev_cmd e) = false) (res_trace (handler_of h w))).
  { intros Hh. eapply Forall_impl; [exact (no_list_edit h Hh w)|].
    intros e. cbn. destruct (is_list_edit (ev_cmd e)); [discriminate | reflexivity]. }
  destruct (refreshing h) eqn:Hr.
  - destruct (handler_refreshes h w Hr) as [H1 H2].
    split; [|split].
    + intros pre c a s post Htr Hc. exact (refreshed_spec h _ _ pre c a s post H1 Htr Hc).
    + intros Hno. exact (edits_follow_spec h _ H2 Hno).
    + discriminate.
  - split; [|split].
    + intros pre c a s post _ Hc. rewrite (never_triggered h c Hr) in Hc. discriminate Hc.
    + intros _. exact (Hn eq_refl).
    + exact Hn.
Qed.

Lemma refresh_after_mutation_witness :
  exists post',
    drop 1 (res_trace (handler_of H_create_camera (Examples.at_scene Examples.studio))) =
    res_trace (list_cameras
      (@mkWorld Scene.scene_host (w_globals (Examples.at_scene Examples.studio))
         (Scene.set_cameras Examples.studio
            [("perspShape", "persp"); ("cam1Shape", "cam1"); ("cameraShape3", "camera3")])))
    ++ post'.
Proof.
  apply (proj1 (refresh_after_mutation Scene.scene_host H_create_camera
                  (Examples.at_scene Examples.studio))
           [] Camera ["camera3"; "cameraShape3"]).
  - reflexivity.
  - reflexivity.
Defined.

(** ** What a handler does when it goes through *)

Section Blocking.
Context {host : Host}.
Implicit Types (w : world host) (e : event host) (tr : list (event host)) (s : hstate host).

Lemma blocking_sel v s : blocking (Ev TslSelectItem (inr v) s) = negb (truthy v).
Proof. reflexivity. Qed.

Lemma blocking_confirm m b d c i (a : string) s :
  blocking (Ev (ConfirmDialog "Delete Camera?" m b d c i) (inr a) s) =
  negb (String.eqb a "Yes").
Proof. unfold blocking. rewrite declined_confirm. apply orb_false_r. Qed.

Lemma blocking_prompt t m b d c i (a : string) s :
  blocking (Ev (PromptDialog t m b d c i) (inr a) s) = negb (String.eqb a "OK").
Proof. unfold blocking. rewrite declined_prompt. apply orb_false_r. Qed.

Lemma not_blocking_list_cmd e : is_list_cmd (ev_cmd e) = true -> blocking e = false.
Proof. destruct e as [c r s]. destruct c; try discriminate; reflexivity. Qed.

Lemma list_cameras_unblocked w : unblocked (res_trace (list_cameras w)).
Proof.
  eapply Forall_impl; [apply list_cameras_cmds|]. intros e. apply not_blocking_list_cmd.
Qed.

Lemma reset_loop_unblocked (cams : list string) w :
  unblocked (res_trace (for_each cams reset_renderable w)).
Proof.
  revert w. induction cams as [|c cams IH]; intros w; cbn [for_each]; [constructor|].
  rewrite run_bind, run_reset. cbn [res_out res_world res_trace app].
  constructor; [reflexivity | apply IH].
Qed.

Lemma blocked_first e tr : blocking e = true -> ~ unblocked (e :: tr).
Proof. intros He H. apply Forall_inv in H. congruence. Qed.

Lemma blocked_later e tr : ~ unblocked tr -> ~ unblocked (e :: tr).
Proof. intros Hn H. apply Hn. exact (Forall_inv_tail H). Qed.

End Blocking.

Ltac not_blocking :=
  first
    [ reflexivity
    | rewrite blocking_confirm;
      match goal with B : String.eqb _ "Yes" = true |- _ => rewrite B end; reflexivity
    | rewrite blocking_prompt;
      match goal with B : String.eqb _ "OK" = true |- _ => rewrite B end; reflexivity ].

Ltac is_blocking :=
  first
    [ reflexivity
    | rewrite blocking_confirm;
      match goal with B : String.eqb _ "Yes" = false |- _ => rewrite B end; reflexivity
    | rewrite blocking_prompt;
      match goal with B : String.eqb _ "OK" = false |- _ => rewrite B end; reflexivity ].

Ltac ub_all :=
  lazymatch goal with
  | |- unblocked _ => unfold unblocked; ub_all
  | |- Forall _ [] => constructor
  | |- Forall _ (res_trace (list_cameras _) ++ _) =>
      apply Forall_app; split; [apply list_cameras_unblocked | ub_all]
  | |- Forall _ (res_trace (list_cameras _)) => apply list_cameras_unblocked
  | |- Forall _ (res_trace (for_each _ reset_renderable _) ++ _) =>
      apply Forall_app; split; [apply reset_loop_unblocked | ub_all]
  | |- Forall _ (_ :: _) => constructor; [not_blocking | ub_all]
  end.

(** Finds the blocking event among the first events of the trace. *)
Ltac blocked_tac :=
  lazymatch goal with
  | |- ~ unblocked (_ :: _) =>
      first [ apply blocked_first; is_blocking
            | apply blocked_later; blocked_tac ]
  end.

Ltac in_ev :=
  lazymatch goal with
  | |- In _ (_ ++ _) => apply in_or_app; right; in_ev
  | |- In _ (_ :: _) => first [left; reflexivity | right; in_ev]
  end.

Ltac operation_leaf :=
  unfold operation_post; cbn beta; intros Hclean;
  first
    [ exfalso; exact (not_clean_raise _ _ Hclean)
    | exfalso; refine (not_clean_dialog _ _ _ _ _ Hclean); [in_trace | reflexivity]
    | clear Hclean; right; split; [blocked_tac | mc_norm; reflexivity]
    | clear Hclean; left; split;
      [ ub_all
      | mc_norm; rewrite ?mc_reset_loop; econstructor; in_ev ] ].

Section Operations.
Context {host : Host}.
Implicit Types (w : world host).

Lemma create_camera_operation w : wp create_camera (operation_post H_create_camera) w.
Proof. unfold create_camera. repeat wp_step; operation_leaf. Qed.

Lemma delete_camera_operation w : wp delete_camera (operation_post H_delete_camera) w.
Proof. unfold delete_camera. repeat wp_step; operation_leaf. Qed.

Lemma rename_camera_operation w : wp rename_camera (operation_post H_rename_camera) w.
Proof. unfold rename_camera. repeat wp_step; operation_leaf. Qed.

Lemma import_cameras_operation w : wp import_cameras (operation_post H_import_cameras) w.
Proof. unfold import_cameras. repeat wp_step; operation_leaf. Qed.

Lemma export_cameras_operation w : wp export_cameras (operation_post H_export_cameras) w.
Proof. unfold export_cameras. repeat wp_step; operation_leaf. Qed.

Lemma duplicate_camera_operation w :
  wp duplicate_camera (operation_post H_duplicate_camera) w.
Proof. unfold duplicate_camera. repeat wp_step; operation_leaf. Qed.

Lemma show_camera_info_operation w :
  wp show_camera_info (operation_post H_show_camera_info) w.
Proof. unfold show_camera_info. repeat wp_step; operation_leaf. Qed.

Lemma toggle_lock_camera_operation w :
  wp toggle_lock_camera (operation_post H_toggle_lock_camera) w.
Proof. unfold toggle_lock_camera. repeat first [wp_step | wp_loop]; operation_leaf. Qed.

Lemma set_renderable_camera_operation w :
  wp set_renderable_camera (operation_post H_set_renderable_camera) w.
Proof. unfold set_renderable_camera. repeat first [wp_step | wp_reset]; operation_leaf. Qed.

Lemma handler_operation (h : handler_id) w : wp (handler_of h) (operation_post h) w.
Proof.
  destruct h; cbn [handler_of].
  - apply create_camera_operation.
  - apply delete_camera_operation.
  - apply rename_camera_operation.
  - apply toggle_lock_camera_operation.
  - apply export_cameras_operation.
  - apply import_cameras_operation.
  - apply set_renderable_camera_operation.
  - apply duplicate_camera_operation.
  - apply show_camera_info_operation.
Qed.

End Operations.

Lemma unblockedb_unblocked {host : Host} (tr : list (event host)) :
  unblockedb tr = true -> unblocked tr.
Proof.
  unfold unblockedb, unblocked. intros H.
  apply Forall_forall. intros e He. apply list_elem_of_In in He.
  rewrite forallb_forall in H. specialize (H e He).
  destruct (blocking e); [discriminate | reflexivity].
Qed.

(** X1. A handler run that returns and shows no "Error" dialog has
    issued either no mutating host command or exactly the ones of its
    kind, with the arguments the answers of that run give: [camera];
    [delete] of the first selected entry; [rename] of it to the text of
    the prompt; the nine lock settings of [toggle_lock_camera] on it, to
    the negation of the lock read from translateX; [select] of the whole
    selection then the export to the first path of the file dialog; the
    import of the first path; one reset per camera shape that [ls] listed
    in this run, in that order, then the setting to 1 of the first shape
    of the selected camera; [duplicate] then [rename] of the first
    duplicated node to "<cam>_copy#"; none for [show_camera_info], which
    shows its dialog. *)
Theorem clean_run_mutations (host : Host) (h : handler_id) (w : world host) :
  clean (res_out (handler_of h w)) (res_trace (handler_of h w)) ->
  mutating_cmds (res_trace (handler_of h w)) = [] \/
  mutations (res_trace (handler_of h w)) h (mutating_cmds (res_trace (handler_of h w))).
Proof.
  intros Hclean.
  destruct (handler_operation h w Hclean) as [[_ H]|[_ H]]; [right | left]; exact H.
Qed.

Lemma clean_run_mutations_witness :
  mutating_cmds
    (res_trace (handler_of H_set_renderable_camera
                  (Examples.at_scene Cases.locked_studio))) = [] \/
  mutations
    (res_trace (handler_of H_set_renderable_camera (Examples.at_scene Cases.locked_studio)))
    H_set_renderable_camera
    (mutating_cmds
       (res_trace (handler_of H_set_renderable_camera
                     (Examples.at_scene Cases.locked_studio)))).
Proof.
  apply (clean_run_mutations Scene.scene_host H_set_renderable_camera
           (Examples.at_scene Cases.locked_studio)).
  apply cleanb_clean. vm_compute. reflexivity.
Defined.

(** C3 as stated fails: a clean run of [toggle_lock_camera] issues nine
    mutating host commands, one lock setting per transform attribute. *)
Lemma toggle_lock_issues_nine_commands :
  mutating_cmds (res_trace (toggle_lock_camera (Examples.at_scene Examples.studio))) =
    lock_cmds "cam1" true /\
  length (mutating_cmds
            (res_trace (toggle_lock_camera (Examples.at_scene Examples.studio)))) = 9%nat.
Proof. split; vm_compute; reflexivity. Qed.

(** C3 (amended).  A handler run that returns and shows no "Error"
    dialog issues the mutating host commands of its operation when
    nothing blocked it, and none when something did (nothing selected, or
    a dialog turned down).  Only [create_camera], [delete_camera],
    [rename_camera] and [import_cameras] issue a single one;
    [toggle_lock_camera] issues nine, [export_cameras] two,
    [duplicate_camera] two, [set_renderable_camera] one per listed camera
    shape and one more, [show_camera_info] none. *)
Theorem operation_commands (host : Host) (h : handler_id) (w : world host) :
  clean (res_out (handler_of h w)) (res_trace (handler_of h w)) ->
  (unblocked (res_trace (handler_of h w)) ->
   mutations (res_trace (handler_of h w)) h (mutating_cmds (res_trace (handler_of h w)))) /\
  (~ unblocked (res_trace (handler_of h w)) ->
   mutating_cmds (res_trace (handler_of h w)) = []).
Proof.
  intros Hclean.
  destruct (handler_operation h w Hclean) as [[Hu H]|[Hn H]].
  - split; [intros _; exact H | intros Hn; contradiction].
  - split; [intros Hu; contradiction | intros _; exact H].
Qed.

Lemma operation_commands_witness :
  mutations (res_trace (handler_of H_duplicate_camera (Examples.at_scene Examples.studio)))
    H_duplicate_camera
    (mutating_cmds
       (res_trace (handler_of H_duplicate_camera (Examples.at_scene Examples.studio)))).
Proof.
  apply (operation_commands Scene.scene_host H_duplicate_camera
           (Examples.at_scene Examples.studio)).
  - apply cleanb_clean. vm_compute. reflexivity.
  - apply unblockedb_unblocked. vm_compute. reflexivity.
Defined.

(** ** The window *)





(** ** Exceptions: the whole picture *)




(** ** One renderable camera *)

(** C9. On a host whose numeric attributes obey [attr_laws], after a run
    of [set_renderable_camera] on the selected camera [cam] that returns
    and shows no "Error" dialog: the first camera shape the host lists
    under [cam] has renderable 1; every other listed camera shape whose
    reset the host did not refuse has renderable 0; so among the listed
    shapes whose reset was not refused, that shape is the only one with
    renderable 1. *)
Theorem one_renderable_camera (host : Host)
    (value : hstate host -> string -> option Z) (L : attr_laws host value)
    (w : world host) (cam : string) (rest : list string) (s0 : hstate host)
    (shapes : list string) (s1 : hstate host) :
  exec host TslSelectItem (w_host w) = (inr (Some (cam :: rest)), s0) ->
  exec host Ls_camera s0 = (inr shapes, s1) ->
  clean (res_out (set_renderable_camera w)) (res_trace (set_renderable_camera w)) ->
  let final := w_host (res_world (set_renderable_camera w)) in
  let refused c :=
    exists x s, In (Ev (SetAttr (c +:+ ".renderable") 0) (inl x) s)
                  (res_trace (set_renderable_camera w)) in
  exists sh others s2,
    In (Ev (ListRelativesShapes cam) (inr (Some (sh :: others))) s2)
      (res_trace (set_renderable_camera w)) /\
    value final (sh +:+ ".renderable") = Some 1 /\
    (forall c, In c shapes -> c <> sh -> ~ refused c ->
       value final (c +:+ ".renderable") = Some 0) /\
    (forall c, In c shapes -> ~ refused c ->
       value final (c +:+ ".renderable") = Some 1 -> c = sh).
Proof.
  intros Hsel Hls Hclean final refused.
  destruct (set_renderable_camera_exclusive value L w Hclean cam rest s0 shapes s1 Hsel Hls)
    as (sh & others & s2 & Hin & H1 & H0).
  exists sh, others, s2. split; [exact Hin|]. split; [exact H1|]. split.
  - intros c Hc Hne Hnr. destruct (H0 c Hc Hne) as [Hz|Hr]; [exact Hz | contradiction].
  - intros c Hc Hnr Hv. destruct (decide (c = sh)) as [->|Hne]; [reflexivity|].
    destruct (H0 c Hc Hne) as [Hz|Hr]; [|contradiction].
    fold final in Hz. rewrite Hz in Hv. discriminate Hv.
Qed.

Lemma one_renderable_camera_witness :
  exists sh others s2,
    In (Ev (ListRelativesShapes "cam1") (inr (Some (sh :: others))) s2)
      (res_trace (set_renderable_camera (Examples.at_scene Examples.studio))) /\
    Scene.sc_attr (w_host (res_world (set_renderable_camera (Examples.at_scene Examples.studio))))
      !! (sh +:+ ".renderable") = Some 1.
Proof.
  assert (Hc : clean (res_out (set_renderable_camera (Examples.at_scene Examples.studio)))
                 (res_trace (set_renderable_camera (Examples.at_scene Examples.studio))))
    by (apply cleanb_clean; vm_compute; reflexivity).
  destruct (one_renderable_camera Scene.scene_host (fun s a => Scene.sc_attr s !! a)
              scene_attr_laws (Examples.at_scene Examples.studio) "cam1" []
              Examples.studio ["perspShape"; "cam1Shape"] Examples.studio
              eq_refl eq_refl Hc)
    as (sh & others & s2 & Hin & H1 & _).
  exists sh, others, s2. split; [exact Hin | exact H1].
Defined.

(** ** Toggling twice *)

(** C10 as stated fails: in the studio translateX of "cam1" is unlocked
    and translateY is locked; after two clean runs of
    [toggle_lock_camera], translateY is unlocked. *)
Lemma second_toggle_does_not_restore :
  cleanb (res_out (toggle_lock_camera (Examples.at_scene Examples.studio)))
    (res_trace (toggle_lock_camera (Examples.at_scene Examples.studio))) = true /\
  cleanb
    (res_out (toggle_lock_camera
       (res_world (toggle_lock_camera (Examples.at_scene Examples.studio)))))
    (res_trace (toggle_lock_camera
       (res_world (toggle_lock_camera (Examples.at_scene Examples.studio))))) = true /\
  Scene.locked Examples.studio "cam1.translateY" = true /\
  Scene.locked
    (w_host (res_world (toggle_lock_camera
       (res_world (toggle_lock_camera (Examples.at_scene Examples.studio))))))
    "cam1.translateY" = false.
Proof. repeat split; vm_compute; reflexivity. Qed.

(** C10 (amended).  On a host whose locks obey [lock_laws]:
    [toggle_lock_camera] reads the lock of translateX of the selected
    camera and sets all nine transform attributes to its negation, so
    after a clean run the nine locks are equal to each other and opposite
    to the lock translateX had; after a second clean run on the same
    camera the nine locks are the lock translateX had at first.  The
    second run restores the original locks exactly when the nine locks
    agreed with that of translateX to begin with. *)
Theorem toggle_lock_round_trip (host : Host)
    (lock_of : hstate host -> string -> bool) (L : lock_laws host lock_of)
    (w : world host) (cam : string) (rest rest' : list string) (s0 s0' : hstate host) :
  let w1 := res_world (toggle_lock_camera w) in
  let w2 := res_world (toggle_lock_camera w1) in
  let lock (v : world host) (a : string) := lock_of (w_host v) (cam +:+ "." +:+ a) in
  exec host TslSelectItem (w_host w) = (inr (Some (cam :: rest)), s0) ->
  exec host TslSelectItem (w_host w1) = (inr (Some (cam :: rest')), s0') ->
  clean (res_out (toggle_lock_camera w)) (res_trace (toggle_lock_camera w)) ->
  clean (res_out (toggle_lock_camera w1)) (res_trace (toggle_lock_camera w1)) ->
  (forall a, In a transform_attrs -> lock w1 a = negb (lock w "translateX")) /\
  (forall a, In a transform_attrs -> lock w2 a = lock w "translateX") /\
  ((forall a, In a transform_attrs -> lock w a = lock w "translateX") <->
   (forall a, In a transform_attrs -> lock w2 a = lock w a)).
Proof.
  intros w1 w2 lock Hsel Hsel1 Hclean Hclean1.
  assert (Hx : In "translateX" transform_attrs).
  { unfold transform_attrs. cbn [flat_map map app In]. left. reflexivity. }
  assert (H1 : forall a, In a transform_attrs -> lock w1 a = negb (lock w "translateX")).
  { intros a Ha.
    exact (toggle_lock_camera_effect lock_of L w Hclean cam rest s0 Hsel a Ha). }
  assert (H2 : forall a, In a transform_attrs -> lock w2 a = lock w "translateX").
  { intros a Ha. unfold lock, w2.
    rewrite (toggle_lock_camera_effect lock_of L w1 Hclean1 cam rest' s0' Hsel1 a Ha).
    change (cam +:+ ".translateX") with (cam +:+ "." +:+ "translateX").
    fold (lock w1 "translateX"). rewrite (H1 _ Hx). apply negb_involutive. }
  split; [exact H1|]. split; [exact H2|]. split.
  - intros Hu a Ha. rewrite (H2 a Ha), (Hu a Ha). reflexivity.
  - intros Hr a Ha. rewrite <- (Hr a Ha). exact (H2 a Ha).
Qed.

Lemma toggle_lock_round_trip_witness :
  Scene.locked
    (w_host (res_world (toggle_lock_camera
       (res_world (toggle_lock_camera (Examples.at_scene Examples.studio))))))
    ("cam1" +:+ "." +:+ "scaleZ") =
  Scene.locked Examples.studio ("cam1" +:+ "." +:+ "translateX").
Proof.
  assert (Hc : clean (res_out (toggle_lock_camera (Examples.at_scene Examples.studio)))
                 (res_trace (toggle_lock_camera (Examples.at_scene Examples.studio))))
    by (apply cleanb_clean; vm_compute; reflexivity).
  assert (Hc' : clean
                  (res_out (toggle_lock_camera
                     (res_world (toggle_lock_camera (Examples.at_scene Examples.studio)))))
                  (res_trace (toggle_lock_camera
                     (res_world (toggle_lock_camera (Examples.at_scene Examples.studio))))))
    by (apply cleanb_clean; vm_compute; reflexivity).
  apply (proj1 (proj2 (toggle_lock_round_trip Scene.scene_host Scene.locked scene_lock_laws
           (Examples.at_scene Examples.studio) "cam1" [] []
           Examples.studio
           (w_host (res_world (toggle_lock_camera (Examples.at_scene Examples.studio))))
           eq_refl eq_refl Hc Hc'))).
  unfold transform_attrs. cbn [flat_map map app In]. do 8 right. left. reflexivity.
Defined.

(** ** The two passes of [list_cameras] *)

(** C5 as stated fails: [list_cameras] lists the camera shapes before it
    clears the scroll list, and it makes two passes: with two cameras,
    both parent queries come before the first append. *)
Lemma list_cameras_lists_first_and_runs_two_passes :
  map ev_cmd (res_trace (list_cameras (Examples.at_scene Examples.studio))) =
    [Ls_camera; TslRemoveAll;
     ListRelativesParent "perspShape"; ListRelativesParent "cam1Shape";
     TslAppend "persp"; TslAppend "cam1"].
Proof. vm_compute. reflexivity. Qed.
